(** * macro-decorators: path resolution, accessor synthesis and the macros

    A shallow embedding of the TypeScript sources
      - [src/utils/index.ts]  (getPath, getPaths, setPath),
      - the single-file revision of [src/index.ts] that carries [macro],
        [getArray] and the documented macros,
      - the earliest revision of [src/index.ts] and the [macro] it imports
        (module [Legacy]),
    over a small model of the host object system: a heap of objects with
    data and accessor properties, arrays with holes, and function objects
    whose bodies live in host code.

    The model follows ECMAScript for what the sources use: member lookup
    and assignment in strict code, [typeof x === 'function'], truthiness,
    [===], and the array methods [filter], [map], [slice], [sort],
    [forEach] and [reduce]. An object's table holds the members visible on
    it, inherited ones included; objects whose behaviour is host code (Map,
    a class with [get] and [set] of its own) are objects with function
    members; a call into host code returns or throws, and so does every
    conversion of an object to a primitive, which runs its [valueOf] or
    [toString]. Symbols, proxies and objects that bring array methods of
    their own are left out, and numbers are the integer-valued doubles, the
    infinities and NaN, with the rounding of doubles. *)

From Stdlib Require Import ZArith String Ascii List Lia Bool Sorted.
From stdpp Require Import base option list gmap strings.

Local Open Scope Z_scope.
Local Open Scope string_scope.
Local Open Scope list_scope.

(** ** Host values *)

Module JS.

Abbreviation loc := nat (only parsing).
Abbreviation fn := nat (only parsing).

(** Numbers: the integer-valued doubles, the two infinities and NaN. *)
Inductive number :=
| NaN
| NegInfinity
| Finite (z : Z)
| Infinity.

Inductive value :=
| VUndefined
| VNull
| VBool (b : bool)
| VNumber (n : number)
| VString (s : string)
| VRef (l : loc).

(** A property slot as [[Get]] and [[Set]] see it: the table of an object
    lists every member visible on it, own or inherited. *)
Inductive property :=
| Data (v : value) (writable : bool)
| Accessor (getter setter : option fn).

(** [None] in an array is a hole. *)
Inductive kind :=
| Plain
| Array (elems : list (option value))
| Function (f : fn).

Record object := Object {
  kind_of : kind;
  props : gmap string property;
  extensible : bool
}.

Abbreviation heap := (list object) (only parsing).

Inductive error :=
| TypeError
| RangeError
| Thrown (v : value).

Arguments VRef l%_nat.
Arguments Function f%_nat.

#[global] Instance number_eq_dec : EqDecision number.
Proof. solve_decision. Defined.
#[global] Instance value_eq_dec : EqDecision value.
Proof. solve_decision. Defined.

(** ** Computations: a heap is threaded, a throw aborts *)

Inductive outcome (A : Type) :=
| Ok (a : A) (h : heap)
| Throw (e : error) (h : heap).
Arguments Ok {A} a h.
Arguments Throw {A} e h.

Definition M (A : Type) : Type := heap -> outcome A.

Definition ret {A} (a : A) : M A := fun h => Ok a h.
Definition throw {A} (e : error) : M A := fun h => Throw e h.
Definition bind {A B} (m : M A) (k : A -> M B) : M B :=
  fun h => match m h with
           | Ok a h' => k a h'
           | Throw e h' => Throw e h'
           end.
Definition read_heap : M heap := fun h => Ok h h.

#[global] Instance M_ret : MRet M := @ret.
#[global] Instance M_bind : MBind M := fun A B k m => bind m k.

(** What the host supplies: the bodies of function objects, the members of
    the wrapper prototypes of primitives, ToNumber on strings and objects,
    [+] when an operand is not a number, the comparison behind [<] when an
    operand is an object (told which operand to convert first), and the
    longest argument list a call takes. The conversions of objects run
    [valueOf] and [toString], host code that may throw or write. *)
Record host := Host {
  call : fn -> value -> list value -> M value;
  prim_member : value -> string -> value;
  coerce_number : value -> M number;
  host_add : value -> value -> M value;
  host_less : bool -> value -> value -> M (option bool);
  max_arguments : N
}.

(** A function the library is handed or makes itself. *)
Inductive func :=
| Closure (body : value -> list value -> M value)
| Ref (v : value).

(** ** Primitive operations *)

Definition is_nullish (v : value) : bool :=
  match v with
  | VUndefined | VNull => true
  | _ => false
  end.

(** [Boolean(v)] *)
Definition truthy (v : value) : bool :=
  match v with
  | VUndefined | VNull => false
  | VBool b => b
  | VNumber NaN => false
  | VNumber (Finite z) => negb (Z.eqb z 0)
  | VNumber _ => true
  | VString s => negb (String.eqb s "")
  | VRef _ => true
  end.

(** [a === b] *)
Definition strict_equal (a b : value) : bool :=
  match a, b with
  | VNumber NaN, _ | _, VNumber NaN => false
  | _, _ => bool_decide (a = b)
  end.

(** [typeof v === 'function'] *)
Definition is_function (h : heap) (v : value) : bool :=
  match v with
  | VRef l =>
      match h !! l with
      | Some (Object (Function _) _ _) => true
      | _ => false
      end
  | _ => false
  end.

Definition digit (c : ascii) : option nat :=
  let n := nat_of_ascii c in
  if Nat.leb 48 n && Nat.leb n 57 then Some (n - 48)%nat else None.

Fixpoint digits (s : string) (acc : nat) : option nat :=
  match s with
  | EmptyString => Some acc
  | String c r =>
      match digit c with
      | Some d => digits r (10 * acc + d)%nat
      | None => None
      end
  end.

(** A canonical array index: decimal digits without a leading zero, for a
    number below 2^32 - 1. *)
Definition array_index (k : string) : option nat :=
  match k with
  | EmptyString => None
  | String "0" EmptyString => Some 0%nat
  | String "0" _ => None
  | _ =>
      if Nat.leb (String.length k) 10 then
        match digits k 0 with
        | Some i => if Z.ltb (Z.of_nat i) (2 ^ 32 - 1) then Some i else None
        | None => None
        end
      else None
  end.

Definition alloc (o : object) : M value :=
  fun h => Ok (VRef (length h)) (h ++ [o]).

Definition new_array (elems : list (option value)) : M value :=
  alloc (Object (Array elems) ∅ true).

(** What [[]] allocates. *)
Definition empty_array : object := Object (Array []) ∅ true.

Section HostOps.
Variable H : host.

(** [v[k]] *)
Definition js_get (v : value) (k : string) : M value :=
  match v with
  | VUndefined | VNull => throw TypeError
  | VRef l => fun h =>
      match h !! l with
      | None => Throw TypeError h
      | Some o =>
          let member :=
            match props o !! k with
            | Some (Data x _) => ret x
            | Some (Accessor (Some g) _) => call H g v []
            | Some (Accessor None _) => ret VUndefined
            | None => ret VUndefined
            end in
          match kind_of o with
          | Array elems =>
              if String.eqb k "length"
              then Ok (VNumber (Finite (Z.of_nat (length elems)))) h
              else match array_index k with
                   | Some i =>
                       match elems !! i with
                       | Some (Some x) => Ok x h
                       | _ => member h
                       end
                   | None => member h
                   end
          | _ => member h
          end
      end
  | _ => ret (prim_member H v k)
  end.

Definition resize (elems : list (option value)) (n : nat) : list (option value) :=
  take n elems ++ replicate (n - length elems) None.

(** The object [o] once [key] holds [x], and once its elements are [es]. *)
Definition with_member (o : object) (key : string) (x : value) : object :=
  Object (kind_of o) (<[key := Data x true]> (props o)) (extensible o).

Definition with_elements (o : object) (es : list (option value)) : object :=
  Object (Array es) (props o) (extensible o).

(** [v[k] = x] in strict code. *)
Definition js_set (v : value) (k : string) (x : value) : M unit :=
  match v with
  | VRef l => fun h =>
      match h !! l with
      | None => Throw TypeError h
      | Some o =>
          let store :=
            match props o !! k with
            | Some (Data _ true) => Ok tt (<[l := with_member o k x]> h)
            | Some (Data _ false) => Throw TypeError h
            | Some (Accessor _ (Some s)) => (call H s v [x] ;; mret tt) h
            | Some (Accessor _ None) => Throw TypeError h
            | None =>
                if extensible o
                then Ok tt (<[l := with_member o k x]> h)
                else Throw TypeError h
            end in
          match kind_of o with
          | Array elems =>
              if String.eqb k "length" then
                match x with
                | VNumber (Finite z) =>
                    if Z.leb 0 z && Z.ltb z (2 ^ 32)
                    then Ok tt (<[l := with_elements o (resize elems (Z.to_nat z))]> h)
                    else Throw RangeError h
                | _ => Throw RangeError h
                end
              else match array_index k with
                   | Some i =>
                       if Nat.ltb i (length elems)
                       then Ok tt (<[l := with_elements o (<[i := Some x]> elems)]> h)
                       else if extensible o
                       then Ok tt (<[l := with_elements o (resize elems i ++ [Some x])]> h)
                       else Throw TypeError h
                   | None => store
                   end
          | _ => store
          end
      end
  | _ => throw TypeError
  end.

(** [f.call(this, ...args)] for a value [f]. *)
Definition js_call (f : value) (this : value) (args : list value) : M value :=
  fun h =>
    match f with
    | VRef l =>
        match h !! l with
        | Some (Object (Function c) _ _) => call H c this args h
        | _ => Throw TypeError h
        end
    | _ => Throw TypeError h
    end.

Definition invoke (f : func) (this : value) (args : list value) : M value :=
  match f with
  | Closure body => body this args
  | Ref v => js_call v this args
  end.

Definition callable (h : heap) (f : func) : bool :=
  match f with
  | Closure _ => true
  | Ref v => is_function h v
  end.

End HostOps.

(** ** Strings *)

(** [s.split(sep)] for a one-character separator. *)
Fixpoint split (sep : ascii) (s : string) : list string :=
  match s with
  | EmptyString => [EmptyString]
  | String c rest =>
      if Ascii.eqb c sep then EmptyString :: split sep rest
      else match split sep rest with
           | seg :: segs => String c seg :: segs
           | [] => [String c EmptyString]
           end
  end.

(** [s.lastIndexOf(c)], [-1] when [c] does not occur. *)
Fixpoint lastIndexOf (c : ascii) (s : string) : Z :=
  match s with
  | EmptyString => -1
  | String a rest =>
      let r := lastIndexOf c rest in
      if Z.leb 0 r then r + 1
      else if Ascii.eqb a c then 0 else -1
  end.

(** [s.substr(start, len)]; [len = None] when the argument is left out. *)
Definition substr (s : string) (start : Z) (len : option Z) : string :=
  let size := Z.of_nat (String.length s) in
  let from := if Z.ltb start 0 then Z.max (size + start) 0 else Z.min start size in
  let count :=
    match len with
    | None => size - from
    | Some n => Z.min (Z.max n 0) (size - from)
    end in
  String.substring (Z.to_nat from) (Z.to_nat count) s.

(** ** Numbers *)

(** ToNumber *)
Definition to_number (H : host) (v : value) : M number :=
  match v with
  | VUndefined => mret NaN
  | VNull => mret (Finite 0)
  | VBool b => mret (Finite (if b then 1 else 0))
  | VNumber n => mret n
  | _ => coerce_number H v
  end.

Definition num_lt (a b : number) : bool :=
  match a, b with
  | NaN, _ | _, NaN => false
  | _, NegInfinity => false
  | NegInfinity, _ => true
  | Infinity, _ => false
  | _, Infinity => true
  | Finite x, Finite y => Z.ltb x y
  end.

(** The double nearest to the integer [z], ties to the even mantissa: [z]
    itself below 2^53, a multiple of a power of two with 53 significant
    bits above, an infinity from 2^1024 - 2^970 on. *)
Definition round_double (z : Z) : number :=
  let a := Z.abs z in
  if Z.ltb a (2 ^ 53) then Finite z
  else
    let e := Z.log2 a - 52 in
    let q := Z.shiftr a e in
    let r := a - Z.shiftl q e in
    let half := Z.shiftl 1 (e - 1) in
    let q' := if Z.ltb half r || (Z.eqb r half && Z.odd q) then q + 1 else q in
    let m := Z.shiftl q' e in
    if Z.leb (2 ^ 1024) m then (if Z.ltb z 0 then NegInfinity else Infinity)
    else Finite (Z.sgn z * m).

(** [a + b] on numbers: the exact sum, rounded. *)
Definition num_add (a b : number) : number :=
  match a, b with
  | NaN, _ | _, NaN => NaN
  | Infinity, NegInfinity | NegInfinity, Infinity => NaN
  | Infinity, _ | _, Infinity => Infinity
  | NegInfinity, _ | _, NegInfinity => NegInfinity
  | Finite x, Finite y => round_double (x + y)
  end.

(** The larger (smaller) of two numbers, NaN when either is. *)
Definition num_max (a b : number) : number :=
  match a, b with
  | NaN, _ | _, NaN => NaN
  | _, _ => if num_lt a b then b else a
  end.

Definition num_min (a b : number) : number :=
  match a, b with
  | NaN, _ | _, NaN => NaN
  | _, _ => if num_lt b a then b else a
  end.

(** [a + b] *)
Definition js_add (H : host) (a b : value) : M value :=
  match a, b with
  | VNumber x, VNumber y => mret (VNumber (num_add x y))
  | _, _ => host_add H a b
  end.

(** The comparison behind [<], [>], [<=] and [>=]: [None] when an operand
    is NaN and the comparison is undefined. *)
Definition num_less (a b : number) : option bool :=
  match a, b with
  | NaN, _ | _, NaN => None
  | _, _ => Some (num_lt a b)
  end.

(** Is [a] less than [b], the left or the right operand converted
    first: two primitives compare as strings when both are strings and as
    numbers otherwise; an object is converted first, by the host. *)
Definition js_less (H : host) (left_first : bool) (a b : value) : M (option bool) :=
  match a, b with
  | VRef _, _ | _, VRef _ => host_less H left_first a b
  | VString x, VString y => mret (Some (String.ltb x y))
  | _, _ =>
      if left_first
      then x ← to_number H a; y ← to_number H b; mret (num_less x y)
      else y ← to_number H b; x ← to_number H a; mret (num_less x y)
  end.

(** [a < b], false when the comparison is undefined. *)
Definition js_lt (H : host) (a b : value) : M bool :=
  r ← js_less H true a b; mret (default false r).

(** [Math.max(...xs)] and [Math.min(...xs)]: every argument is converted,
    in order, before the numbers are compared. *)
Definition Math_max (H : host) (xs : list value) : M number :=
  ns ← mapM (to_number H) xs;
  mret (fold_left num_max ns NegInfinity).

Definition Math_min (H : host) (xs : list value) : M number :=
  ns ← mapM (to_number H) xs;
  mret (fold_left num_min ns Infinity).

(** ** Array.prototype *)

Section Arrays.
Variable H : host.

Definition elements (h : heap) (l : loc) : option (list (option value)) :=
  match h !! l with
  | Some (Object (Array es) _ _) => Some es
  | _ => None
  end.

(** The receiver of an array method; no other value has the method. *)
Definition the_array (v : value) : M loc :=
  fun h =>
    match v with
    | VRef l =>
        match elements h l with
        | Some _ => Ok l h
        | None => Throw TypeError h
        end
    | _ => Throw TypeError h
    end.

Definition array_length (l : loc) : M nat :=
  fun h =>
    match elements h l with
    | Some es => Ok (length es) h
    | None => Ok 0%nat h
    end.

(** The element at index [k], [None] when [k] is a hole or out of range. *)
Definition element (l : loc) (k : nat) : M (option value) :=
  fun h =>
    match elements h l with
    | Some es =>
        match es !! k with
        | Some (Some v) => Ok (Some v) h
        | _ => Ok None h
        end
    | None => Ok None h
    end.

Definition set_elements (l : loc) (es : list (option value)) : M unit :=
  fun h =>
    match h !! l with
    | Some (Object (Array _) p e) => Ok tt (<[l := Object (Array es) p e]> h)
    | _ => Ok tt h
    end.

(** Visit the indices [k], [k+1], ..., [k+n-1] of the array at [l], each
    read when its turn comes. *)
Fixpoint iterate {A} (l : loc) (k n : nat)
    (body : A -> nat -> option value -> M A) (acc : A) : M A :=
  match n with
  | O => mret acc
  | S n' =>
      x ← element l k;
      acc' ← body acc k x;
      iterate l (S k) n' body acc'
  end.

(** [arr.forEach(f)] and [arr.reduce(f, init)] for a closure [f] of the
    library: what the closure updates is the accumulator. Holes are
    skipped. *)
Definition array_fold {A} (body : A -> value -> M A) (init : A) (arr : value) : M A :=
  l ← the_array arr;
  n ← array_length l;
  iterate l 0 n
    (fun acc _ x => match x with
                    | Some v => body acc v
                    | None => mret acc
                    end) init.

Definition index_value (k : nat) : value := VNumber (Finite (Z.of_nat k)).

(** [arr.filter(fn)] *)
Definition array_filter (fn : func) (arr : value) : M value :=
  l ← the_array arr;
  n ← array_length l;
  h ← read_heap;
  if callable h fn then
    kept ← iterate l 0 n
      (fun acc k x =>
         match x with
         | Some v =>
             selected ← invoke H fn VUndefined [v; index_value k; arr];
             mret (if truthy selected then acc ++ [Some v] else acc)
         | None => mret acc
         end) [];
    new_array kept
  else throw TypeError.

(** [arr.map(fn)]; holes stay holes. *)
Definition array_map (fn : func) (arr : value) : M value :=
  l ← the_array arr;
  n ← array_length l;
  h ← read_heap;
  if callable h fn then
    mapped ← iterate l 0 n
      (fun acc k x =>
         match x with
         | Some v =>
             y ← invoke H fn VUndefined [v; index_value k; arr];
             mret (acc ++ [Some y])
         | None => mret (acc ++ [None])
         end) [];
    new_array mapped
  else throw TypeError.

(** [arr.slice()] *)
Definition array_slice (arr : value) : M value :=
  l ← the_array arr;
  n ← array_length l;
  copy ← iterate l 0 n (fun acc _ x => mret (acc ++ [x])) [];
  new_array copy.

(** What [...arr] iterates: arrays and strings are iterable; a hole reads
    [undefined]. *)
Definition iterable (v : value) : M (list value) :=
  fun h =>
    match v with
    | VString s =>
        Ok ((fun c => VString (String c EmptyString)) <$> list_ascii_of_string s) h
    | VRef l =>
        match elements h l with
        | Some es => Ok (default VUndefined <$> es) h
        | None => Throw TypeError h
        end
    | _ => Throw TypeError h
    end.

(** [...arr] as the argument list of a call: the engine takes no more
    arguments than its stack holds and throws a RangeError beyond. *)
Definition spread (v : value) : M (list value) :=
  xs ← iterable v;
  if N.leb (N.of_nat (length xs)) (max_arguments H) then mret xs
  else throw RangeError.

(** The order [arr.sort(cmp)] produces, for a comparator that is
    consistent in the sense of ECMAScript and leaves the heap alone: the
    stable order, which is the order of every conforming engine; a stable
    insertion sort computes it, [cmp(y, x) > 0] putting [x] before [y].
    For other comparators the order, and the calls that are made, are the
    engine's choice, and the insertion order stands for one such choice. *)
Fixpoint insert_sorted (cmp : func) (x : value) (sorted : list value) : M (list value) :=
  match sorted with
  | [] => mret [x]
  | y :: ys =>
      r ← invoke H cmp VUndefined [y; x];
      n ← to_number H r;
      if num_lt (Finite 0) n then mret (x :: y :: ys)
      else ys' ← insert_sorted cmp x ys; mret (y :: ys')
  end.

Fixpoint sort_values (cmp : func) (xs sorted : list value) : M (list value) :=
  match xs with
  | [] => mret sorted
  | x :: xs' => s ← insert_sorted cmp x sorted; sort_values cmp xs' s
  end.

Definition is_defined (x : option value) : option value :=
  match x with
  | Some VUndefined | None => None
  | Some v => Some v
  end.

Definition is_undefined (x : option value) : bool :=
  match x with
  | Some VUndefined => true
  | _ => false
  end.

Definition is_hole (x : option value) : bool :=
  match x with
  | None => true
  | _ => false
  end.

(** [arr.sort(cmp)]: sorts in place and returns the receiver; the
    comparator never sees [undefined], which sorts last, before the
    holes. *)
Definition array_sort (cmp : func) (arr : value) : M value :=
  l ← the_array arr;
  h ← read_heap;
  if callable h cmp then
    let es := default [] (elements h l) in
    sorted ← sort_values cmp (omap is_defined es) [];
    set_elements l
      ((Some <$> sorted)
         ++ List.filter is_undefined es
         ++ List.filter is_hole es) ;;
    mret arr
  else throw TypeError.

End Arrays.

(** ** Relational operators *)

(** [Array.isArray(v)] *)
Definition is_array (h : heap) (v : value) : bool :=
  match v with
  | VRef l =>
      match elements h l with
      | Some _ => true
      | None => false
      end
  | _ => false
  end.

(** [a > b]: [b < a] with [a] converted first, false when undefined. *)
Definition js_gt (H : host) (a b : value) : M bool :=
  r ← js_less H false b a; mret (default false r).

(** [a >= b]: not [a < b], false when undefined. *)
Definition js_ge (H : host) (a b : value) : M bool :=
  r ← js_less H true a b; mret (default false (negb <$> r)).

(** [a <= b]: not [b < a], false when undefined. *)
Definition js_le (H : host) (a b : value) : M bool :=
  r ← js_less H false b a; mret (default false (negb <$> r)).

End JS.

Import JS.

(** ** src/utils/index.ts *)

Module Utils.
Section WithHost.
Variable H : host.

Fixpoint getPath_loop (segments : list string) (current : value) : M value :=
  match segments with
  | [] => mret current
  | segment :: rest =>
      if is_nullish current then mret current
      else
        next ←
          (g ← js_get H current "get";
           h ← read_heap;
           if is_function h g
           then get ← js_get H current "get";
                js_call H get current [VString segment]
           else js_get H current segment);
        getPath_loop rest next
  end.

Definition getPath (obj : value) (path : string) : M value :=
  getPath_loop (split "." path) obj.

(** The array [paths.map(...)] builds cannot be reached before it is
    returned; it is allocated once its elements are known. *)
Definition getPaths (obj : value) (paths : list string) : M value :=
  vs ← mapM (getPath obj) paths;
  new_array (Some <$> vs).

Definition setPath (obj : value) (path : string) (value : value) : M unit :=
  let objPath := substr path 0 (Some (lastIndexOf "." path)) in
  let key := substr path (lastIndexOf "." path + 1) None in
  resolvedObj ← (if truthy (VString objPath) then getPath obj objPath else mret obj);
  s ← js_get H resolvedObj "set";
  h ← read_heap;
  if is_function h s
  then set ← js_get H resolvedObj "set";
       js_call H set resolvedObj [VString key; value] ;; mret tt
  else js_set H resolvedObj key value.

End WithHost.
End Utils.

(** ** The accessor synthesizer: [macro] of the single-file revision *)

Module Macro.

(** [MacroGetter | MacroDescriptor] *)
Inductive definition :=
| Getter (f : func)
| Descriptor (get set : option func).

(** The [PropertyDescriptor] a decorator returns. *)
Record descriptor := {
  desc_get : option func;
  desc_set : option func
}.

Definition decorator : Type := value -> string -> descriptor.

(** The n-th argument of a call, [undefined] when it was left out. *)
Definition arg (n : nat) (args : list value) : value := nth n args VUndefined.

Section WithHost.
Variable H : host.

Definition macro (definition : definition) : decorator :=
  let getter :=
    match definition with
    | Getter f => Some f
    | Descriptor get _ => get
    end in
  let setter :=
    match definition with
    | Getter _ => None
    | Descriptor _ set => set
    end in
  fun _target key =>
    {| desc_get :=
         match getter with
         | Some g => Some (Closure (fun this _ => invoke H g this [this; VString key]))
         | None => None
         end;
       desc_set :=
         match setter with
         | Some s =>
             Some (Closure (fun this args =>
                              invoke H s this [this; VString key; arg 0 args]))
         | None => None
         end |}.

(** What [Object.defineProperty(prototype, key, desc)] installs, as the
    decorator transforms of TypeScript and Babel call it with the
    descriptor the decorator returned: accessors when the descriptor has a
    [get] or a [set], and for a descriptor with neither a data property that
    holds [undefined] and is not writable. *)
Inductive installed :=
| Accessors (get set : option func)
| ReadOnly (v : value).

Definition defineProperty (desc : descriptor) : installed :=
  match desc_get desc, desc_set desc with
  | None, None => ReadOnly VUndefined
  | get, set => Accessors get set
  end.

(** [instance.key] for an instance of the decorated class. *)
Definition read_field (desc : descriptor) (this : value) : M value :=
  match defineProperty desc with
  | Accessors (Some get) _ => invoke H get this []
  | Accessors None _ => mret VUndefined
  | ReadOnly v => mret v
  end.

(** [instance.key = x] in strict code. *)
Definition write_field (desc : descriptor) (this : value) (x : value) : M unit :=
  match defineProperty desc with
  | Accessors _ (Some set) => invoke H set this [x] ;; mret tt
  | Accessors _ None => throw TypeError
  | ReadOnly _ => throw TypeError
  end.

End WithHost.
End Macro.

Import Macro.

(** ** src/index.ts, earliest revision: its private path helpers *)

Module Legacy.
Section WithHost.
Variable H : host.

Fixpoint getPath_loop (segments : list string) (current : value) : M value :=
  match segments with
  | [] => mret current
  | segment :: rest =>
      if is_nullish current then mret current
      else next ← js_get H current segment; getPath_loop rest next
  end.

Definition getPath (obj : value) (path : string) : M value :=
  getPath_loop (split "." path) obj.

Definition getPaths (obj : value) (paths : list string) : M value :=
  vs ← mapM (js_get H obj) paths;
  new_array (Some <$> vs).

Definition setPath (obj : value) (path : string) (value : value) : M unit :=
  let objPath := substr path 0 (Some (lastIndexOf "." path)) in
  let key := substr path (lastIndexOf "." path + 1) None in
  resolvedObj ← (if truthy (VString objPath) then getPath obj objPath else mret obj);
  js_set H resolvedObj key value.

(** [macro] of that revision, kept at the end of README.md: the getter
    and the setter are called as plain functions, without receiver. *)
Definition macro (def : definition) : decorator :=
  let getter :=
    match def with
    | Getter f => Some f
    | Descriptor get _ => get
    end in
  let setter :=
    match def with
    | Getter _ => None
    | Descriptor _ set => set
    end in
  fun _target key =>
    {| desc_get :=
         match getter with
         | Some g => Some (Closure (fun this _ => invoke H g VUndefined [this; VString key]))
         | None => None
         end;
       desc_set :=
         match setter with
         | Some s =>
             Some (Closure (fun this args =>
                              invoke H s VUndefined [this; VString key; arg 0 args]))
         | None => None
         end |}.

(** The macros of that revision that differ from the later one. *)

Definition and (paths : list string) : decorator :=
  macro (Getter (Closure (fun _ args =>
    arr ← getPaths (arg 0 args) paths;
    array_fold (fun a b => mret (if truthy a then b else a)) (VBool true) arr))).

Definition or (paths : list string) : decorator :=
  macro (Getter (Closure (fun _ args =>
    arr ← getPaths (arg 0 args) paths;
    array_fold (fun a b => mret (if truthy a then a else b)) (VBool false) arr))).

Definition collect (paths : list string) : decorator :=
  macro (Getter (Closure (fun _ args => getPaths (arg 0 args) paths))).

Definition filter (path : string) (fn : func) : decorator :=
  macro (Getter (Closure (fun _ args =>
    arr ← getPath (arg 0 args) path;
    array_filter H fn arr))).

Definition filterBy (path : string) (key : string) (value : option value) : decorator :=
  let value := default VUndefined value in
  if negb (strict_equal value VUndefined)
  then filter path (Closure (fun _ a =>
         x ← js_get H (arg 0 a) key; mret (VBool (strict_equal x value))))
  else filter path (Closure (fun _ a =>
         x ← js_get H (arg 0 a) key; mret (VBool (truthy x)))).

Definition sort (path : string) (sortFn : func) : decorator :=
  macro (Getter (Closure (fun _ args =>
    arr ← getPath (arg 0 args) path;
    array_sort H sortFn arr))).

End WithHost.
End Legacy.


(** ** src/index.ts, the single-file revision *)

Module Index.
Section WithHost.
Variable H : host.

(** This revision carries [getPath], [getPaths] and [setPath] as private
    helpers, word for word those of src/utils/index.ts. *)
Definition getPath := Utils.getPath H.
Definition getPaths := Utils.getPaths H.
Definition setPath := Utils.setPath H.

(** *** Aliasing *)

Definition alias (path : string) : decorator :=
  macro H (Descriptor
    (Some (Closure (fun _ args => getPath (arg 0 args) path)))
    (Some (Closure (fun _ args =>
       setPath (arg 0 args) path (arg 2 args) ;; mret VUndefined)))).

Definition reads (path : string) (defaultValue : option value) : decorator :=
  let defaultValue := default VUndefined defaultValue in
  macro H (Getter (Closure (fun _ args =>
    value ← getPath (arg 0 args) path;
    if is_nullish value then
      h ← read_heap;
      if is_function h defaultValue
      then js_call H defaultValue VUndefined []
      else mret defaultValue
    else mret value))).

(** *** Logical operations *)

Definition and (paths : list string) : decorator :=
  macro H (Getter (Closure (fun _ args =>
    arr ← getPaths (arg 0 args) paths;
    array_fold (fun a b => mret (if truthy a then b else a)) (VBool true) arr))).

Definition or (paths : list string) : decorator :=
  macro H (Getter (Closure (fun _ args =>
    arr ← getPaths (arg 0 args) paths;
    array_fold (fun a b => mret (if truthy a then a else b)) (VBool false) arr))).

(** *** Arrays *)

(** A [Set] that never leaves the getter: its elements in insertion order. *)
Definition set_has (set : list value) (v : value) : bool :=
  existsb (fun x => bool_decide (x = v)) set.

Definition set_add (set : list value) (v : value) : list value :=
  if set_has set v then set else set ++ [v].

Definition setFrom (arr : value) : M (list value) :=
  array_fold (fun set v => mret (set_add set v)) [] arr.

Definition getArray (obj : value) (path : string) : M value :=
  v ← getPath obj path;
  if truthy v then mret v else new_array [].

(** The array of arrays stays inside the getter. *)
Definition getArrays (obj : value) (paths : list string) : M (list value) :=
  mapM (getArray obj) paths.

Definition getValues (set : list value) : M value :=
  new_array (Some <$> set).

(** [for (let arr of arrays) { ... }], the variable the body updates being
    the accumulator. *)
Fixpoint for_of {A} (body : A -> value -> M A) (arrays : list value) (acc : A) : M A :=
  match arrays with
  | [] => mret acc
  | arr :: rest => next ← body acc arr; for_of body rest next
  end.

Definition collect (paths : list string) : decorator :=
  macro H (Getter (Closure (fun _ args => getPaths (arg 0 args) paths))).

Definition diff (paths : list string) : decorator :=
  macro H (Getter (Closure (fun _ args =>
    if bool_decide (length paths = 0%nat) then new_array []
    else
      arrays ← getArrays (arg 0 args) paths;
      match arrays with
      | [] => mret VUndefined
      | first :: arrays =>
          for_of (fun intersect arr =>
                    values ← setFrom arr;
                    array_filter H
                      (Closure (fun _ a => mret (VBool (negb (set_has values (arg 0 a))))))
                      intersect)
                 arrays first
      end))).

Definition filter (path : string) (fn : func) : decorator :=
  macro H (Getter (Closure (fun _ args =>
    arr ← getArray (arg 0 args) path;
    array_filter H fn arr))).

Definition filterBy (path : string) (key : string) (value : option value) : decorator :=
  let value := default VUndefined value in
  if negb (strict_equal value VUndefined)
  then filter path (Closure (fun _ a =>
         x ← js_get H (arg 0 a) key; mret (VBool (strict_equal x value))))
  else filter path (Closure (fun _ a =>
         x ← js_get H (arg 0 a) key; mret (VBool (truthy x)))).

Definition intersect (paths : list string) : decorator :=
  macro H (Getter (Closure (fun _ args =>
    if bool_decide (length paths = 0%nat) then new_array []
    else
      arrays ← getArrays (arg 0 args) paths;
      match arrays with
      | [] => mret VUndefined
      | first :: arrays =>
          for_of (fun intersect arr =>
                    values ← setFrom arr;
                    array_filter H
                      (Closure (fun _ a => mret (VBool (set_has values (arg 0 a)))))
                      intersect)
                 arrays first
      end))).

Definition map (path : string) (fn : func) : decorator :=
  macro H (Getter (Closure (fun _ args =>
    arr ← getArray (arg 0 args) path;
    array_map H fn arr))).

Definition mapBy (path : string) (key : string) : decorator :=
  map path (Closure (fun _ a => js_get H (arg 0 a) key)).

Definition max (path : string) : decorator :=
  macro H (Getter (Closure (fun _ args =>
    arr ← getArray (arg 0 args) path;
    xs ← spread H arr;
    m ← Math_max H xs;
    mret (VNumber m)))).

Definition min (path : string) : decorator :=
  macro H (Getter (Closure (fun _ args =>
    arr ← getArray (arg 0 args) path;
    xs ← spread H arr;
    m ← Math_min H xs;
    mret (VNumber m)))).

Definition sort (path : string) (fn : func) : decorator :=
  macro H (Getter (Closure (fun _ args =>
    arr ← getArray (arg 0 args) path;
    copy ← array_slice arr;
    array_sort H fn copy))).

(** [asc] is [true] when left out. *)
Definition sortBy (path : string) (key : string) (asc : option bool) : decorator :=
  let asc := default true asc in
  sort path (Closure (fun _ args =>
    let a := arg 0 args in
    let b := arg 1 args in
    ak ← js_get H a key;
    bk ← js_get H b key;
    below ← js_lt H ak bk;
    if (below : bool) then
      mret (VNumber (Finite (if asc then -1 else 1)))
    else
      ak ← js_get H a key;
      bk ← js_get H b key;
      above ← js_gt H ak bk;
      if (above : bool) then
        mret (VNumber (Finite (if asc then 1 else -1)))
      else mret (VNumber (Finite 0)))).

Definition sum (path : string) : decorator :=
  macro H (Getter (Closure (fun _ args =>
    arr ← getArray (arg 0 args) path;
    array_fold (fun s v => js_add H s v) (VNumber (Finite 0)) arr))).

Definition union (paths : list string) : decorator :=
  macro H (Getter (Closure (fun _ args =>
    arrays ← getArrays (arg 0 args) paths;
    union ← for_of (fun union arr =>
                      array_fold (fun set v => mret (set_add set v)) union arr)
                   arrays [];
    getValues union))).

Definition unique (path : string) : decorator := union [path].

Definition uniqueBy (path : string) (key : string) : decorator :=
  macro H (Getter (Closure (fun _ args =>
    arr ← getArray (arg 0 args) path;
    state ← array_fold
      (fun (state : list value * list value) v =>
         let '(union, values) := state in
         keyValue ← js_get H v key;
         if negb (set_has union keyValue)
         then mret (set_add union keyValue, values ++ [v])
         else mret (union, values))
      ([], []) arr;
    new_array (Some <$> state.2)))).

(** *** Logical operations, the rest *)

Definition isEmpty (v : value) : M bool :=
  if negb (truthy v) then mret true
  else
    h ← read_heap;
    if is_array h v then
      len ← js_get H v "length";
      if strict_equal len (VNumber (Finite 0)) then mret true else mret false
    else mret false.

Definition empty (path : string) : decorator :=
  macro H (Getter (Closure (fun _ args =>
    v ← getPath (arg 0 args) path;
    e ← isEmpty v;
    mret (VBool e)))).

Definition notEmpty (path : string) : decorator :=
  macro H (Getter (Closure (fun _ args =>
    v ← getPath (arg 0 args) path;
    e ← isEmpty v;
    mret (VBool (negb e))))).

Definition equal (path : string) (x : value) : decorator :=
  macro H (Getter (Closure (fun _ args =>
    v ← getPath (arg 0 args) path;
    mret (VBool (strict_equal v x))))).

Definition gt (path : string) (x : value) : decorator :=
  macro H (Getter (Closure (fun _ args =>
    v ← getPath (arg 0 args) path;
    b ← js_gt H v x;
    mret (VBool b)))).

Definition gte (path : string) (x : value) : decorator :=
  macro H (Getter (Closure (fun _ args =>
    v ← getPath (arg 0 args) path;
    b ← js_ge H v x;
    mret (VBool b)))).

Definition lt (path : string) (x : value) : decorator :=
  macro H (Getter (Closure (fun _ args =>
    v ← getPath (arg 0 args) path;
    b ← js_lt H v x;
    mret (VBool b)))).

Definition lte (path : string) (x : value) : decorator :=
  macro H (Getter (Closure (fun _ args =>
    v ← getPath (arg 0 args) path;
    b ← js_le H v x;
    mret (VBool b)))).

Definition nullish (path : string) : decorator :=
  macro H (Getter (Closure (fun _ args =>
    v ← getPath (arg 0 args) path;
    mret (VBool (strict_equal v VNull || strict_equal v VUndefined))))).

Definition not (path : string) : decorator :=
  macro H (Getter (Closure (fun _ args =>
    v ← getPath (arg 0 args) path;
    mret (VBool (negb (truthy v)))))).

Definition bool (path : string) : decorator :=
  macro H (Getter (Closure (fun _ args =>
    v ← getPath (arg 0 args) path;
    mret (VBool (truthy v))))).

End WithHost.
End Index.

(** ** The path resolver as the specification words it *)

Module Spec.

(** Cutting a string at the last occurrence of [c]: what comes before it
    and what comes after, [None] when [c] does not occur. *)
Fixpoint cut_last (c : ascii) (s : string) : option (string * string) :=
  match s with
  | EmptyString => None
  | String a rest =>
      match cut_last c rest with
      | Some (pre, post) => Some (String a pre, post)
      | None => if Ascii.eqb a c then Some (EmptyString, rest) else None
      end
  end.

(** The final key of a path: everything after the last dot. *)
Definition final_key (path : string) : string :=
  match cut_last "." path with
  | Some (_, post) => post
  | None => path
  end.

(** The slot [key] of [o] takes a direct assignment: a writable data
    property, or no member at all on an extensible object. *)
Definition assignable (o : object) (key : string) : Prop :=
  (exists x, props o !! key = Some (Data x true)) \/
  (props o !! key = None /\ extensible o = true).



(** A heap of plain data: no function objects and no accessors. *)
Definition data_only (h : heap) : Prop :=
  forall l o, h !! l = Some o ->
    (forall f, kind_of o <> Function f) /\
    (forall k g s, props o !! k <> Some (Accessor g s)).

(** The same, as a check that computes. *)
Definition is_data (p : property) : bool :=
  match p with
  | Data _ _ => true
  | Accessor _ _ => false
  end.

Definition plain_data (o : object) : bool :=
  match kind_of o with
  | Function _ => false
  | _ => bool_decide (map_Forall (fun _ p => is_data p = true) (props o))
  end.

(** The number [z]. *)
Definition integer (z : Z) : value := VNumber (Finite z).

(** The values an array holds, holes left out: what [forEach], [filter]
    and [reduce] visit. *)
Definition present (es : list (option value)) : list value := omap id es.

(** The elements, from index [k] on, that [q] accepts at their index. *)
Fixpoint kept_from (q : nat -> value -> bool) (k : nat) (es : list (option value))
    : list value :=
  match es with
  | [] => []
  | Some v :: rest =>
      if q k v then v :: kept_from q (S k) rest else kept_from q (S k) rest
  | None :: rest => kept_from q (S k) rest
  end.

Definition kept (q : nat -> value -> bool) (es : list (option value)) : list value :=
  kept_from q 0 es.

(** [p] applied to each element at its index, from index [k] on, the holes
    left where they are. *)
Fixpoint mapped_from (p : nat -> value -> value) (k : nat) (es : list (option value))
    : list (option value) :=
  match es with
  | [] => []
  | x :: rest => (p k <$> x) :: mapped_from p (S k) rest
  end.

Definition mapped (p : nat -> value -> value) (es : list (option value))
    : list (option value) :=
  mapped_from p 0 es.

(** A safe integer: a double that stands for one integer only. *)
Definition safe (z : Z) : Prop := - 2 ^ 53 < z < 2 ^ 53.

(** A consistent comparator, as ECMAScript defines it for [sort], on the
    values [P] holds of: it answers with a number that is not NaN, puts
    every value level with itself, and "before", "level with" and "after"
    are transitive, "level with" symmetric as well. *)
Definition before (c : value -> value -> number) (a b : value) : Prop :=
  num_lt (c a b) (Finite 0) = true.

Definition after (c : value -> value -> number) (a b : value) : Prop :=
  num_lt (Finite 0) (c a b) = true.

Definition level (c : value -> value -> number) (a b : value) : Prop :=
  num_lt (c a b) (Finite 0) = false /\ num_lt (Finite 0) (c a b) = false.

Record consistent (c : value -> value -> number) (P : value -> Prop) : Prop := {
  consistent_number : forall a b, P a -> P b -> c a b <> NaN;
  consistent_refl : forall a, P a -> level c a a;
  consistent_sym : forall a b, P a -> P b -> level c a b -> level c b a;
  consistent_level : forall a b d, P a -> P b -> P d ->
    level c a b -> level c b d -> level c a d;
  consistent_before : forall a b d, P a -> P b -> P d ->
    before c a b -> before c b d -> before c a d;
  consistent_after : forall a b d, P a -> P b -> P d ->
    after c a b -> after c b d -> after c a d
}.

Section WithHost.
Variable H : host.

(** The path resolves, without side effect, to the array at [op.1], which
    holds the elements [op.2]. *)
Definition array_at (obj : value) (h : heap) (path : string)
    (op : loc * list (option value)) : Prop :=
  Utils.getPath H obj path h = Ok (VRef op.1) h /\ elements h op.1 = Some op.2.


(** "If [current] exposes a callable member named [get], the next value is
    obtained by invoking [current.get(segment)]. Otherwise the next value
    is obtained by direct member lookup [current[segment]]." *)
Definition next_value (current : value) (segment : string) : M value :=
  g ← js_get H current "get";
  h ← read_heap;
  if is_function h g
  then get ← js_get H current "get"; js_call H get current [VString segment]
  else js_get H current segment.

(** "Starting with [current = root], iterates segments in order; if
    [current] is null or undefined, resolution stops early and the overall
    result is that terminal value." *)
Definition resolve (root : value) (path : string) : M value :=
  fold_left
    (fun reached segment =>
       current ← reached;
       if is_nullish current then mret current else next_value current segment)
    (split "." path) (mret root).

(** "Resolves the container path from root (if the container path is
    empty, the container is root itself)." *)
Definition container (root : value) (path : string) : M value :=
  match cut_last "." path with
  | Some (String a pre, _) => Utils.getPath H root (String a pre)
  | _ => mret root
  end.


End WithHost.
End Spec.

Import Spec.

(** ** Objects of the test suite *)

Module Fixtures.

Definition num (z : Z) : value := VNumber (Finite z).
Definition data (v : value) : property := Data v true.
Definition plain (members : gmap string property) : object := Object Plain members true.
Definition array (vs : list value) : object := Object (Array (Some <$> vs)) ∅ true.
Definition function (f : fn) : object := Object (Function f) ∅ true.
Arguments function f%_nat.

(** A host without functions, for the bodies below. *)
Definition bare : host :=
  Host (fun _ _ _ => mret VUndefined) (fun _ _ => VUndefined)
       (fun _ => mret NaN) (fun _ _ => mret VUndefined)
       (fun _ _ _ => mret None) 65535.

(** The functions the tests hand to the library:
    0: [(a, b) => (a < b ? 1 : -1)]
    1: [() => []]
    2: [get(key) { return this.inner[key]; }]
    3: [set(key, value) { this.inner[key] = value; }]
    4: [function() { expect(true); }]
    5: [i => i === 1] *)
Definition test_call (f : fn) (this : value) (args : list value) : M value :=
  match f with
  | 0%nat =>
      below ← js_lt bare (arg 0 args) (arg 1 args);
      mret (num (if (below : bool) then 1 else -1))
  | 1%nat => new_array []
  | 2%nat =>
      match arg 0 args with
      | VString key => inner ← js_get bare this "inner"; js_get bare inner key
      | _ => mret VUndefined
      end
  | 3%nat =>
      match arg 0 args with
      | VString key =>
          inner ← js_get bare this "inner";
          js_set bare inner key (arg 1 args) ;; mret VUndefined
      | _ => mret VUndefined
      end
  | 5%nat => mret (VBool (strict_equal (arg 0 args) (num 1)))
  | _ => mret VUndefined
  end.

Definition test_host : host :=
  Host test_call (fun _ _ => VUndefined)
       (fun _ => mret NaN) (fun _ _ => mret VUndefined)
       (fun _ _ _ => mret None) 65535.

(** [{ a: { b: 1 } }] *)
Definition nested : heap :=
  [ plain {[ "a" := data (VRef 1%nat) ]};
    plain {[ "b" := data (num 1) ]} ].


(** [class Foo { foo = new SomeClass(); }], SomeClass keeping [bar: 'baz']
    in [inner] behind its [get] and [set]. *)
Definition with_container : heap :=
  [ plain {[ "foo" := data (VRef 1%nat) ]};
    plain {[ "inner" := data (VRef 2%nat);
             "get" := data (VRef 3%nat);
             "set" := data (VRef 4%nat) ]};
    plain {[ "bar" := data (VString "baz") ]};
    function 2;
    function 3 ].

(** [o = {}; o.a = o] *)
Definition cyclic : heap := [ plain {[ "a" := data (VRef 0%nat) ]} ].

(** [{}] and [function() {}] *)
Definition with_function : heap := [ plain ∅; function 4 ].

(** [Object.freeze({ b: 1 })] *)
Definition frozen : heap := [ Object Plain {[ "b" := Data (num 1) false ]} false ].

(** [{ '': {} }] *)
Definition with_empty_key : heap :=
  [ plain {[ "" := data (VRef 1%nat) ]}; plain ∅ ].

(** [class Foo { foo = [1, 2, 3]; empty = null; }], with the comparator and
    the predicate of the tests. *)
Definition with_arrays : heap :=
  [ plain {[ "foo" := data (VRef 1%nat); "empty" := data VNull ]};
    array [num 1; num 2; num 3];
    function 0;
    function 5 ].

(** [class Qux { qux = new Foo(); }] with
    [class Foo { foo = false; bar = false; baz = true; }] *)
Definition with_flags : heap :=
  [ plain {[ "qux" := data (VRef 1%nat) ]};
    plain {[ "foo" := data (VBool false);
             "bar" := data (VBool false);
             "baz" := data (VBool true) ]} ].

(** [class Foo { foo = [{ num: 1 }, { num: 0 }, {}]; }] *)
Definition with_records : heap :=
  [ plain {[ "foo" := data (VRef 1) ]};
    array [VRef 2; VRef 3; VRef 4];
    plain {[ "num" := data (num 1) ]};
    plain {[ "num" := data (num 0) ]};
    plain ∅ ].

(** [class Foo { a = [1, 2, 3]; b = [2]; c = [3]; d = [1, 4]; }] *)
Definition with_sets : heap :=
  [ plain {[ "a" := data (VRef 1); "b" := data (VRef 2);
             "c" := data (VRef 3); "d" := data (VRef 4) ]};
    array [num 1; num 2; num 3];
    array [num 2];
    array [num 3];
    array [num 1; num 4] ].

(** [class Foo { arr = [{ k: 1 }, { k: 2 }, { k: 2 }, { k: 3 }]; }] *)
Definition with_keys : heap :=
  [ plain {[ "arr" := data (VRef 1) ]};
    array [VRef 2; VRef 3; VRef 4; VRef 5];
    plain {[ "k" := data (num 1) ]};
    plain {[ "k" := data (num 2) ]};
    plain {[ "k" := data (num 2) ]};
    plain {[ "k" := data (num 3) ]} ].

(** [class Foo { foo?: any[]; }] and the default [() => []] *)
Definition with_default : heap :=
  [ plain {[ "foo" := data VUndefined ]};
    function 1 ].

(** [class Foo { foo = new Broken(); flag = false; }], the [get] of
    Broken reading [this.inner[key]] without an [inner]. *)
Definition with_broken_get : heap :=
  [ plain {[ "foo" := data (VRef 1); "flag" := data (VBool false) ]};
    plain {[ "get" := data (VRef 2) ]};
    function 2 ].

(** [class Foo { foo = [1, undefined, 3]; }] *)
Definition with_undefined : heap :=
  [ plain {[ "foo" := data (VRef 1) ]};
    array [num 1; VUndefined; num 3] ].

(** [(v, i) => i === 1] *)
Definition at_index_one : func :=
  Closure (fun _ args => mret (VBool (strict_equal (arg 1 args) (num 1)))).

(** [(a, b) => a < b ? -1 : a > b ? 1 : 0], and its answer on numbers. *)
Definition by_order : func :=
  Closure (fun _ args =>
    below ← js_lt bare (arg 0 args) (arg 1 args);
    if (below : bool) then mret (num (-1))
    else
      above ← js_gt bare (arg 0 args) (arg 1 args);
      mret (num (if (above : bool) then 1 else 0))).

Definition order (a b : value) : number :=
  match a, b with
  | VNumber x, VNumber y =>
      Finite (if num_lt x y then -1 else if num_lt y x then 1 else 0)
  | _, _ => NaN
  end.

(** The elements of the array a read returned. *)
Definition contents (r : outcome value) : option (list (option value)) :=
  match r with
  | Ok (VRef l) h => elements h l
  | _ => None
  end.

End Fixtures.

(** * Properties *)

(** ** Strings *)

Lemma split_nonempty c s : split c s <> [].
Proof.
  destruct s as [|a s]; simpl; [done|].
  destruct (Ascii.eqb a c); [done|].
  by destruct (split c s).
Qed.

Lemma split_app c p q :
  split c (p +:+ String c q) = split c p ++ split c q.
Proof.
  induction p as [|a p IH]; simpl.
  - by rewrite Ascii.eqb_refl.
  - rewrite IH. destruct (Ascii.eqb a c); [done|].
    pose proof (split_nonempty c p) as Hne.
    by destruct (split c p).
Qed.

Lemma split_cut_last c s :
  split c s =
    match cut_last c s with
    | Some (pre, post) => split c pre ++ [post]
    | None => [s]
    end.
Proof.
  induction s as [|a r IH]; simpl; [done|].
  destruct (cut_last c r) as [[pre post]|].
  - rewrite IH. simpl. destruct (Ascii.eqb a c); [done|].
    pose proof (split_nonempty c pre) as Hne.
    by destruct (split c pre).
  - rewrite IH. by destruct (Ascii.eqb a c).
Qed.

Lemma lastIndexOf_lower c s : -1 <= lastIndexOf c s.
Proof.
  induction s as [|a r IH]; simpl; [lia|].
  destruct (Z.leb_spec 0 (lastIndexOf c r)); [lia|].
  destruct (Ascii.eqb a c); lia.
Qed.

Lemma lastIndexOf_cut_last c s :
  match cut_last c s with
  | Some (pre, post) =>
      lastIndexOf c s = Z.of_nat (String.length pre) /\ s = pre +:+ String c post
  | None => lastIndexOf c s = -1
  end.
Proof.
  induction s as [|a r IH]; simpl; [done|].
  destruct (cut_last c r) as [[pre post]|].
  - destruct IH as [-> ->]. split; [|done].
    destruct (Z.leb_spec 0 (Z.of_nat (String.length pre))); simpl; lia.
  - rewrite IH. simpl.
    destruct (Ascii.eqb_spec a c) as [->|]; [|done].
    by split.
Qed.

Lemma substring_prefix pre s :
  String.substring 0 (String.length pre) (pre +:+ s) = pre.
Proof.
  induction pre as [|a pre IH]; simpl.
  - by destruct s.
  - by rewrite IH.
Qed.

Lemma substring_skip pre n m s :
  String.substring (String.length pre + n) m (pre +:+ s) = String.substring n m s.
Proof. induction pre as [|a pre IH]; simpl; [done|apply IH]. Qed.

Lemma substring_all s : String.substring 0 (String.length s) s = s.
Proof. induction s as [|a s IH]; simpl; [done|by rewrite IH]. Qed.

Lemma length_append (p q : string) :
  String.length (p +:+ q) = (String.length p + String.length q)%nat.
Proof. induction p as [|a p IH]; simpl; [done|by rewrite IH]. Qed.

Lemma substr_head s n :
  0 <= n <= Z.of_nat (String.length s) ->
  substr s 0 (Some n) = String.substring 0 (Z.to_nat n) s.
Proof.
  intros Hn. unfold substr. rewrite Z.ltb_irrefl.
  replace (Z.min 0 (Z.of_nat (String.length s))) with 0 by lia.
  replace (Z.min (Z.max n 0) (Z.of_nat (String.length s) - 0)) with n by lia.
  done.
Qed.

Lemma substr_negative s n : n < 0 -> substr s 0 (Some n) = EmptyString.
Proof.
  intros Hn. unfold substr. rewrite Z.ltb_irrefl.
  replace (Z.min 0 (Z.of_nat (String.length s))) with 0 by lia.
  replace (Z.min (Z.max n 0) (Z.of_nat (String.length s) - 0)) with 0 by lia.
  by destruct s.
Qed.

Lemma substr_tail s k :
  (k <= String.length s)%nat ->
  substr s (Z.of_nat k) None = String.substring k (String.length s - k) s.
Proof.
  intros Hk. unfold substr.
  destruct (Z.ltb_spec (Z.of_nat k) 0); [lia|].
  replace (Z.min (Z.of_nat k) (Z.of_nat (String.length s))) with (Z.of_nat k) by lia.
  rewrite Nat2Z.id. f_equal. lia.
Qed.

(** [path.substr(0, path.lastIndexOf('.'))] is what comes before the last
    dot, and is empty without one. *)
Lemma objPath_cut_last s :
  substr s 0 (Some (lastIndexOf "." s)) =
    match cut_last "." s with
    | Some (pre, _) => pre
    | None => EmptyString
    end.
Proof.
  pose proof (lastIndexOf_cut_last "." s) as Hc.
  destruct (cut_last "." s) as [[pre post]|].
  - destruct Hc as [-> Hs].
    rewrite substr_head by (rewrite Hs, length_append; lia).
    rewrite Nat2Z.id, Hs. apply substring_prefix.
  - rewrite Hc. by apply substr_negative.
Qed.

(** [path.substr(path.lastIndexOf('.') + 1)] is what comes after the last
    dot, and the whole path without one. *)
Lemma key_cut_last s :
  substr s (lastIndexOf "." s + 1) None =
    match cut_last "." s with
    | Some (_, post) => post
    | None => s
    end.
Proof.
  pose proof (lastIndexOf_cut_last "." s) as Hc.
  destruct (cut_last "." s) as [[pre post]|].
  - destruct Hc as [-> Hs].
    assert (Hlen : String.length s = (String.length pre + S (String.length post))%nat)
      by (by rewrite Hs, length_append).
    replace (Z.of_nat (String.length pre) + 1) with (Z.of_nat (String.length pre + 1))
      by lia.
    rewrite substr_tail by lia.
    replace (String.length s - (String.length pre + 1))%nat with (String.length post)
      by lia.
    rewrite Hs, substring_skip. simpl. apply substring_all.
  - rewrite Hc. change (-1 + 1) with (Z.of_nat 0).
    rewrite substr_tail by lia. rewrite Nat.sub_0_r. apply substring_all.
Qed.

(** ** The computation monad *)

Lemma bind_Ok {A B} (m : M A) (k : A -> M B) h a h' :
  m h = Ok a h' -> (m ≫= k) h = k a h'.
Proof. intros Hm. unfold mbind, M_bind, bind. by rewrite Hm. Qed.

Lemma bind_Throw {A B} (m : M A) (k : A -> M B) h e h' :
  m h = Throw e h' -> (m ≫= k) h = Throw e h'.
Proof. intros Hm. unfold mbind, M_bind, bind. by rewrite Hm. Qed.

Lemma bind_unfold {A B} (m : M A) (k : A -> M B) h :
  (m ≫= k) h =
    match m h with
    | Ok a h' => k a h'
    | Throw e h' => Throw e h'
    end.
Proof. done. Qed.

Lemma bind_assoc {A B C} (m : M A) (k : A -> M B) (k' : B -> M C) h :
  ((m ≫= k) ≫= k') h = (m ≫= fun a => k a ≫= k') h.
Proof. rewrite !bind_unfold. by destruct (m h). Qed.

Lemma mret_unfold {A} (a : A) h : (mret a : M A) h = Ok a h.
Proof. done. Qed.

Lemma read_heap_bind {B} (k : heap -> M B) h : (read_heap ≫= k) h = k h h.
Proof. done. Qed.

(** ** The path resolver *)

Section Resolver.
Variable H : host.

Lemma getPath_loop_nullish segments current h :
  is_nullish current = true ->
  Utils.getPath_loop H segments current h = Ok current h.
Proof. intros Hn. destruct segments; simpl; [done|]. by rewrite Hn. Qed.

Lemma getPath_loop_cons segment rest current :
  is_nullish current = false ->
  Utils.getPath_loop H (segment :: rest) current =
    next_value H current segment ≫= Utils.getPath_loop H rest.
Proof. intros Hn. simpl. by rewrite Hn. Qed.

Lemma getPath_loop_app s1 s2 current h :
  Utils.getPath_loop H (s1 ++ s2) current h =
    match Utils.getPath_loop H s1 current h with
    | Ok v h' => Utils.getPath_loop H s2 v h'
    | Throw e h' => Throw e h'
    end.
Proof.
  revert current h. induction s1 as [|segment s1 IH]; intros current h; [done|].
  destruct (is_nullish current) eqn:Hn.
  - by rewrite !getPath_loop_nullish.
  - rewrite <- app_comm_cons, !getPath_loop_cons, !bind_unfold by done.
    destruct (next_value H current segment h); [apply IH|done].
Qed.

(** The loop of [getPath] is the resolver of the specification. *)
Lemma getPath_resolve root path h :
  Utils.getPath H root path h = resolve H root path h.
Proof.
  unfold Utils.getPath, resolve.
  change (Utils.getPath_loop H (split "." path) root h)
    with ((mret root ≫= Utils.getPath_loop H (split "." path)) h).
  generalize (mret root : M value). revert h.
  induction (split "." path) as [|segment rest IH]; intros h reached; simpl.
  - rewrite bind_unfold. by destruct (reached h).
  - rewrite <- IH, !bind_unfold. destruct (reached h) as [current h1|]; [|done].
    destruct (is_nullish current) eqn:Hn.
    + rewrite mret_unfold. by rewrite getPath_loop_nullish.
    + fold (next_value H current segment). by rewrite bind_unfold.
Qed.

(** C2. When the resolver of the specification, on the root or on any
    path [p], reaches null or undefined, [getPath] returns that value for
    [p] and for every longer path [p.q], in the heap resolution left, and
    no fault is raised. *)
Theorem getPath_nullish_propagates obj p q v h h' :
  resolve H obj p h = Ok v h' ->
  is_nullish v = true ->
  Utils.getPath H obj p h = Ok v h' /\
  Utils.getPath H obj (p +:+ "." +:+ q) h = Ok v h'.
Proof.
  rewrite <- getPath_resolve. unfold Utils.getPath. intros Hp Hv.
  split; [done|].
  change (p +:+ "." +:+ q) with (p +:+ String "." q).
  rewrite split_app, getPath_loop_app, Hp.
  by apply getPath_loop_nullish.
Qed.

Lemma setPath_container obj path value :
  Utils.setPath H obj path value =
    resolvedObj ← container H obj path;
    s ← js_get H resolvedObj "set";
    h ← read_heap;
    if is_function h s
    then set ← js_get H resolvedObj "set";
         js_call H set resolvedObj [VString (final_key path); value] ;; mret tt
    else js_set H resolvedObj (final_key path) value.
Proof.
  unfold Utils.setPath, container, final_key.
  rewrite objPath_cut_last, key_cut_last.
  by destruct (cut_last "." path) as [[[|a pre] post]|].
Qed.

(** C5. When the container of the path resolves to null or undefined,
    [setPath] faults with a TypeError where it would assign, leaving the
    heap as resolution left it: no container is created. *)
Theorem setPath_nullish_container_faults obj path value c h h' :
  container H obj path h = Ok c h' ->
  is_nullish c = true ->
  Utils.setPath H obj path value h = Throw TypeError h'.
Proof.
  intros Hc Hn. rewrite setPath_container.
  rewrite (bind_Ok _ _ _ _ _ Hc).
  by destruct c.
Qed.


Lemma js_get_plain_absent l o k h :
  h !! l = Some o -> kind_of o = Plain -> props o !! k = None ->
  js_get H (VRef l) k h = Ok VUndefined h.
Proof. intros Hl Hk Hp. unfold js_get. by rewrite Hl, Hk, Hp. Qed.

Lemma js_get_plain_data l o k x w h :
  h !! l = Some o -> kind_of o = Plain -> props o !! k = Some (Data x w) ->
  js_get H (VRef l) k h = Ok x h.
Proof. intros Hl Hk Hp. unfold js_get. by rewrite Hl, Hk, Hp. Qed.

Lemma js_set_plain l o k x h :
  h !! l = Some o -> kind_of o = Plain -> assignable o k ->
  js_set H (VRef l) k x h = Ok tt (<[l := with_member o k x]> h).
Proof.
  intros Hl Hk Hs. unfold js_set. rewrite Hl, Hk.
  by destruct Hs as [[y ->]|[-> ->]].
Qed.









End Resolver.

(** ** The accessor synthesizer *)

Section Synthesizer.
Variable H : host.

(** A read of a field made from a getter function runs the function on
    the instance and the field's name. *)
Lemma read_field_getter body target key this :
  read_field H (macro H (Getter (Closure body)) target key) this
    = body this [this; VString key].
Proof. done. Qed.

(** The [macro] of the earliest revision leaves the accessors out in the
    same cases. *)
Lemma legacy_macro_absent_accessors target key this x h :
  (forall set,
     read_field H (Legacy.macro H (Descriptor None set) target key) this h
       = Ok VUndefined h) /\
  (forall get,
     write_field H (Legacy.macro H (Descriptor get None) target key) this x h
       = Throw TypeError h) /\
  (forall f,
     write_field H (Legacy.macro H (Getter f) target key) this x h = Throw TypeError h).
Proof.
  split; [by intros [set|]|]. split; [by intros [get|]|]. done.
Qed.

Lemma legacy_read_field_getter body target key this :
  read_field H (Legacy.macro H (Getter (Closure body)) target key) this
    = body VUndefined [this; VString key].
Proof. done. Qed.

(** C4. A definition without getter gives a field whose reads yield
    [undefined] and leave the heap as it is; a definition without setter, a
    bare getter function included, gives a field whose writes fault with a
    TypeError; with neither, every read is [undefined] and every write
    faults. *)
Theorem macro_without_getter_or_setter target key this x h :
  (forall set,
     read_field H (macro H (Descriptor None set) target key) this h = Ok VUndefined h) /\
  (forall get,
     write_field H (macro H (Descriptor get None) target key) this x h
       = Throw TypeError h) /\
  (forall f,
     write_field H (macro H (Getter f) target key) this x h = Throw TypeError h) /\
  read_field H (macro H (Descriptor None None) target key) this h = Ok VUndefined h /\
  write_field H (macro H (Descriptor None None) target key) this x h
    = Throw TypeError h.
Proof.
  split; [|split; [|split; [|split]]].
  - intros [set|]; unfold read_field, defineProperty; simpl; done.
  - intros [get|]; unfold write_field, defineProperty; simpl; done.
  - intros f. unfold write_field, defineProperty. simpl. done.
  - done.
  - done.
Qed.

(** With a getter or a setter the field runs it on the instance, the
    field's name and, for a write, the value. *)
Lemma macro_with_getter_and_setter get set target key this x :
  read_field H (macro H (Descriptor (Some get) (Some set)) target key) this
    = invoke H get this [this; VString key] /\
  write_field H (macro H (Descriptor (Some get) (Some set)) target key) this x
    = (invoke H set this [this; VString key; x] ;; mret tt).
Proof. done. Qed.

Lemma lookup_alloc (h : heap) (o : object) : (h ++ [o]) !! length h = Some o.
Proof. by rewrite list_lookup_middle. Qed.

Lemma is_function_alloc h o v :
  is_function h v = true -> is_function (h ++ [o]) v = true.
Proof.
  destruct v as [| | | | |l]; simpl; try done.
  destruct (h !! l) as [o'|] eqn:Hl; [|done].
  by rewrite (lookup_app_l_Some _ _ _ _ Hl).
Qed.

(** C8. A read of a field made by [reads(path, defaultValue)] returns the
    resolved value when it is neither null nor undefined; otherwise the
    default, which is called, on that very read, when it is a function.
    With [() => []] for default, two reads one after the other, the path
    nullish at both, return two different new arrays. *)
Theorem reads_default path defaultValue target key obj v h h' :
  Utils.getPath H obj path h = Ok v h' ->
  read_field H (Index.reads H path defaultValue target key) obj h =
    (if is_nullish v then
       if is_function h' (default VUndefined defaultValue)
       then js_call H (default VUndefined defaultValue) VUndefined [] h'
       else Ok (default VUndefined defaultValue) h'
     else Ok v h') /\
  (forall l f p e v',
     defaultValue = Some (VRef l) ->
     h' !! l = Some (Object (Function f) p e) ->
     call H f VUndefined [] = new_array [] ->
     is_nullish v = true ->
     Utils.getPath H obj path (h' ++ [Object (Array []) ∅ true])
       = Ok v' (h' ++ [Object (Array []) ∅ true]) ->
     is_nullish v' = true ->
     read_field H (Index.reads H path defaultValue target key) obj h
       = Ok (VRef (length h')) (h' ++ [Object (Array []) ∅ true]) /\
     read_field H (Index.reads H path defaultValue target key) obj
         (h' ++ [Object (Array []) ∅ true])
       = Ok (VRef (S (length h')))
            (h' ++ [Object (Array []) ∅ true] ++ [Object (Array []) ∅ true]) /\
     VRef (length h') <> VRef (S (length h'))).
Proof.
  intros Hv.
  assert (Hread : forall h0 h1 w, Utils.getPath H obj path h0 = Ok w h1 ->
    read_field H (Index.reads H path defaultValue target key) obj h0 =
      (if is_nullish w then
         if is_function h1 (default VUndefined defaultValue)
         then js_call H (default VUndefined defaultValue) VUndefined [] h1
         else Ok (default VUndefined defaultValue) h1
       else Ok w h1)).
  { intros h0 h1 w Hw. unfold Index.reads. rewrite read_field_getter.
    unfold Index.getPath. simpl. rewrite (bind_Ok _ _ _ _ _ Hw).
    destruct (is_nullish w); [|done].
    rewrite read_heap_bind. by destruct (is_function h1 _). }
  split; [by apply Hread|].
  intros l f p e v' -> Hl Hf Hn Hv' Hn'.
  assert (Hl' : (h' ++ [Object (Array []) ∅ true]) !! l = Some (Object (Function f) p e))
    by (by apply lookup_app_l_Some).
  rewrite (Hread _ _ _ Hv), (Hread _ _ _ Hv'), Hn, Hn'. simpl.
  rewrite Hl, Hl', Hf.
  repeat split.
  - unfold new_array, alloc. by rewrite length_app, Nat.add_1_r, <- app_assoc.
  - intros [=]. lia.
Qed.

End Synthesizer.

(** ** Arrays *)

Section ArrayFacts.
Variable H : host.

Lemma elements_alloc h es p e :
  elements (h ++ [Object (Array es) p e]) (length h) = Some es.
Proof. unfold elements. by rewrite lookup_alloc. Qed.

Lemma elements_app h o l es :
  elements h l = Some es -> elements (h ++ [o]) l = Some es.
Proof.
  unfold elements. destruct (h !! l) as [o'|] eqn:Hl; [|done].
  by rewrite (lookup_app_l_Some _ _ _ _ Hl).
Qed.

Lemma the_array_elements h l es :
  elements h l = Some es -> the_array (VRef l) h = Ok l h.
Proof. intros He. unfold the_array. by rewrite He. Qed.

Lemma array_length_elements h l es :
  elements h l = Some es -> array_length l h = Ok (length es) h.
Proof. intros He. unfold array_length. by rewrite He. Qed.

Lemma element_elements h l es k x :
  elements h l = Some es -> es !! k = Some x -> element l k h = Ok x h.
Proof. intros He Hk. unfold element. rewrite He, Hk. by destruct x. Qed.

(** A loop whose body leaves the heap alone is a fold over the elements it
    visits. *)
Lemma iterate_pure {A} (g : A -> option value -> A) body l es h n :
  elements h l = Some es ->
  (forall acc k x h, body acc k x h = Ok (g acc x) h) ->
  forall k acc,
    (k + n <= length es)%nat ->
    iterate (A := A) l k n body acc h = Ok (fold_left g (take n (drop k es)) acc) h.
Proof.
  intros He Hbody. induction n as [|n IH]; intros k acc Hk; simpl.
  - done.
  - destruct (lookup_lt_is_Some_2 es k ltac:(lia)) as [x Hx].
    rewrite (bind_Ok _ _ _ _ _ (element_elements _ _ _ _ _ He Hx)).
    rewrite (bind_Ok _ _ _ _ _ (Hbody acc k x h)).
    rewrite IH by lia. by rewrite (drop_S _ _ _ Hx).
Qed.

(** What a loop keeps true of its accumulator holds of its result. *)
Lemma iterate_invariant {A} (Inv : A -> Prop) body l :
  (forall acc k x h acc' h', Inv acc -> body acc k x h = Ok acc' h' -> Inv acc') ->
  forall n k acc h r h',
    Inv acc -> iterate (A := A) l k n body acc h = Ok r h' -> Inv r.
Proof.
  intros Hbody. induction n as [|n IH]; intros k acc h r h' Hacc; simpl.
  - by intros [= <- _].
  - rewrite bind_unfold.
    destruct (element l k h) as [x h1|]; [|done].
    rewrite bind_unfold.
    destruct (body acc k x h1) as [acc' h2|] eqn:Hb; [|done].
    intros Hr. eapply IH; [|exact Hr]. by eapply Hbody.
Qed.

Lemma fold_left_present {A} (g : A -> value -> A) (es : list (option value)) acc :
  fold_left (fun acc x => match x with Some v => g acc v | None => acc end) es acc
    = fold_left g (omap id es) acc.
Proof.
  revert acc. induction es as [|[v|] es IH]; intros acc; simpl; [done|apply IH..].
Qed.

(** [forEach] and [reduce] with a closure that leaves the heap alone. *)
Lemma array_fold_pure {A} (g : A -> value -> A) body init l es h :
  elements h l = Some es ->
  (forall acc v h, body acc v h = Ok (g acc v) h) ->
  array_fold (A := A) body init (VRef l) h = Ok (fold_left g (omap id es) init) h.
Proof.
  intros He Hbody. unfold array_fold.
  rewrite (bind_Ok _ _ _ _ _ (the_array_elements _ _ _ He)).
  rewrite (bind_Ok _ _ _ _ _ (array_length_elements _ _ _ He)).
  rewrite (iterate_pure
             (fun acc x => match x with Some v => g acc v | None => acc end)
             _ _ _ _ _ He);
    [|by intros acc k [v|] h0; [apply Hbody|]|simpl; lia].
  by rewrite drop_0, firstn_all, fold_left_present.
Qed.

Lemma omap_id_Some (vs : list value) : omap id (Some <$> vs) = vs.
Proof. induction vs as [|v vs IH]; [done|]. simpl. by f_equal. Qed.

End ArrayFacts.

(** ** Array methods on an empty array *)

Section EmptyArray.
Variable H : host.

Lemma callable_alloc h o fn :
  callable h fn = true -> callable (h ++ [o]) fn = true.
Proof. destruct fn; [done|apply is_function_alloc]. Qed.

Lemma array_fold_empty {A} body (init : A) l h :
  elements h l = Some [] -> array_fold body init (VRef l) h = Ok init h.
Proof.
  intros He. unfold array_fold.
  rewrite (bind_Ok _ _ _ _ _ (the_array_elements _ _ _ He)).
  by rewrite (bind_Ok _ _ _ _ _ (array_length_elements _ _ _ He)).
Qed.

Lemma array_filter_empty fn l h :
  elements h l = Some [] -> callable h fn = true ->
  array_filter H fn (VRef l) h = Ok (VRef (length h)) (h ++ [empty_array]).
Proof.
  intros He Hfn. unfold array_filter.
  rewrite (bind_Ok _ _ _ _ _ (the_array_elements _ _ _ He)).
  rewrite (bind_Ok _ _ _ _ _ (array_length_elements _ _ _ He)).
  by rewrite read_heap_bind, Hfn.
Qed.

Lemma array_map_empty fn l h :
  elements h l = Some [] -> callable h fn = true ->
  array_map H fn (VRef l) h = Ok (VRef (length h)) (h ++ [empty_array]).
Proof.
  intros He Hfn. unfold array_map.
  rewrite (bind_Ok _ _ _ _ _ (the_array_elements _ _ _ He)).
  rewrite (bind_Ok _ _ _ _ _ (array_length_elements _ _ _ He)).
  by rewrite read_heap_bind, Hfn.
Qed.





(** [getArray] puts a new empty array in place of a falsy value. *)
Lemma getArray_falsy obj path v h h' :
  Utils.getPath H obj path h = Ok v h' -> truthy v = false ->
  Index.getArray H obj path h = Ok (VRef (length h')) (h' ++ [empty_array]).
Proof.
  intros Hv Hf. unfold Index.getArray, Index.getPath.
  by rewrite (bind_Ok _ _ _ _ _ Hv), Hf.
Qed.

Lemma mapM_cons {A B} (f : A -> M B) x l h :
  mapM f (x :: l) h = (y ← f x; ys ← mapM f l; mret (y :: ys)) h.
Proof. done. Qed.

Lemma mapM_app {A B} (f : A -> M B) l1 l2 h :
  mapM f (l1 ++ l2) h = (ys1 ← mapM f l1; ys2 ← mapM f l2; mret (ys1 ++ ys2)) h.
Proof.
  revert h. induction l1 as [|x l1 IH]; intros h.
  - simpl. rewrite bind_unfold, mret_unfold, bind_unfold.
    destruct (mapM f l2 h); done.
  - rewrite <- app_comm_cons, mapM_cons, !bind_unfold, mapM_cons, !bind_unfold.
    destruct (f x h) as [y h1|]; [|done].
    rewrite !bind_unfold, IH, !bind_unfold.
    destruct (mapM f l1 h1) as [ys1 h2|]; [|done].
    rewrite mret_unfold, !bind_unfold. destruct (mapM f l2 h2); done.
Qed.

End EmptyArray.

(** ** The relational operators on numbers *)

Lemma js_less_numbers H left_first x y h :
  js_less H left_first (VNumber x) (VNumber y) h = Ok (num_less x y) h.
Proof. by destruct left_first. Qed.

Lemma js_lt_numbers H x y h :
  js_lt H (VNumber x) (VNumber y) h = Ok (default false (num_less x y)) h.
Proof. unfold js_lt. by rewrite (bind_Ok _ _ _ _ _ (js_less_numbers H true x y h)). Qed.

Lemma js_gt_numbers H x y h :
  js_gt H (VNumber x) (VNumber y) h = Ok (default false (num_less y x)) h.
Proof. unfold js_gt. by rewrite (bind_Ok _ _ _ _ _ (js_less_numbers H false y x h)). Qed.

Lemma js_ge_numbers H x y h :
  js_ge H (VNumber x) (VNumber y) h = Ok (default false (negb <$> num_less x y)) h.
Proof. unfold js_ge. by rewrite (bind_Ok _ _ _ _ _ (js_less_numbers H true x y h)). Qed.

Lemma js_le_numbers H x y h :
  js_le H (VNumber x) (VNumber y) h = Ok (default false (negb <$> num_less y x)) h.
Proof. unfold js_le. by rewrite (bind_Ok _ _ _ _ _ (js_less_numbers H false y x h)). Qed.

(** ** [sort] of the single-file revision *)

Section Sort.
Variable H : host.

Lemma fold_left_snoc {A} (xs acc : list A) :
  fold_left (fun acc x => acc ++ [x]) xs acc = acc ++ xs.
Proof.
  revert acc. induction xs as [|x xs IH]; intros acc; simpl.
  - by rewrite app_nil_r.
  - by rewrite IH, <- app_assoc.
Qed.

(** [slice()] allocates a copy. *)
Lemma array_slice_copy l es h :
  elements h l = Some es ->
  array_slice (VRef l) h = Ok (VRef (length h)) (h ++ [Object (Array es) ∅ true]).
Proof.
  intros He. unfold array_slice.
  rewrite (bind_Ok _ _ _ _ _ (the_array_elements _ _ _ He)).
  rewrite (bind_Ok _ _ _ _ _ (array_length_elements _ _ _ He)).
  rewrite bind_unfold.
  rewrite (iterate_pure (fun acc x => acc ++ [x]) _ _ _ _ _ He);
    [|done|simpl; lia].
  by rewrite drop_0, firstn_all, fold_left_snoc.
Qed.

Section PureComparator.
Variable cmp : func.
Variable P : value -> Prop.
Variable h : heap.
Hypothesis cmp_pure :
  forall a b, P a -> P b ->
    exists n, invoke H cmp VUndefined [a; b] h = Ok (VNumber n) h.

Lemma insert_sorted_pure x sorted :
  P x -> Forall P sorted ->
  exists s, insert_sorted H cmp x sorted h = Ok s h /\ s ≡ₚ x :: sorted.
Proof.
  intros Hx. induction sorted as [|y ys IH]; intros Hsorted; cbn [insert_sorted].
  - exists [x]. by split.
  - apply Forall_cons in Hsorted as [Hy Hys].
    destruct (cmp_pure y x Hy Hx) as [n Hr].
    rewrite (bind_Ok _ _ _ _ _ Hr).
    change (to_number H (VNumber n)) with (mret n : M number).
    rewrite bind_unfold, mret_unfold.
    destruct (num_lt (Finite 0) n).
    + exists (x :: y :: ys). by split.
    + destruct (IH Hys) as (s & Hs & Hperm).
      rewrite (bind_Ok _ _ _ _ _ Hs). exists (y :: s). split; [done|].
      rewrite Hperm. apply perm_swap.
Qed.

Lemma sort_values_pure xs sorted :
  Forall P xs -> Forall P sorted ->
  exists s, sort_values H cmp xs sorted h = Ok s h /\ s ≡ₚ xs ++ sorted.
Proof.
  revert sorted. induction xs as [|x xs IH]; intros sorted Hxs Hsorted;
    cbn [sort_values].
  - exists sorted. by split.
  - apply Forall_cons in Hxs as [Hx Hxs].
    destruct (insert_sorted_pure x sorted Hx Hsorted) as (s1 & Hs1 & Hp1).
    rewrite (bind_Ok _ _ _ _ _ Hs1).
    destruct (IH s1 Hxs) as (s & Hs & Hp).
    { rewrite Hp1. by constructor. }
    exists s. split; [done|].
    rewrite Hp, Hp1. by rewrite <- Permutation_middle.
Qed.

End PureComparator.

Lemma sort_partition (es : list (option value)) :
  (Some <$> omap is_defined es) ++ List.filter is_undefined es ++ List.filter is_hole es
    ≡ₚ es.
Proof.
  induction es as [|x es IH]; [done|].
  destruct x as [[| | | | |]|]; simpl;
    try (by rewrite IH).
  - rewrite <- Permutation_middle. by rewrite IH.
  - rewrite app_assoc, <- Permutation_middle, <- app_assoc. by rewrite IH.
Qed.

(** The elements the comparator of [sort] is called with. *)
Lemma elem_of_defined v (es : list (option value)) :
  v ∈ omap is_defined es <-> Some v ∈ es /\ v <> VUndefined.
Proof.
  rewrite list_elem_of_omap. split.
  - intros (x & Hx & Hd). destruct x as [[]|]; simplify_eq/=; by split.
  - intros [Hv Hne]. exists (Some v). split; [done|]. by destruct v.
Qed.

(** With a comparator that, on the elements of the source other than
    [undefined] and in the heap that holds the copy, answers with a number
    and leaves the heap alone, a read of the field returns a new array
    holding the elements of the source in some order, and the source array
    is as it was. *)
Lemma sort_copy path fn target key obj src es h h1 :
  Index.getArray H obj path h = Ok (VRef src) h1 ->
  elements h1 src = Some es ->
  callable h1 fn = true ->
  (forall a b, Some a ∈ es -> a <> VUndefined -> Some b ∈ es -> b <> VUndefined ->
     exists n, invoke H fn VUndefined [a; b] (h1 ++ [Object (Array es) ∅ true])
               = Ok (VNumber n) (h1 ++ [Object (Array es) ∅ true])) ->
  exists sorted,
    read_field H (Index.sort H path fn target key) obj h
      = Ok (VRef (length h1)) (h1 ++ [Object (Array sorted) ∅ true]) /\
    sorted ≡ₚ es /\
    src <> length h1 /\
    (h1 ++ [Object (Array sorted) ∅ true]) !! src = h1 !! src.
Proof.
  intros Harr He Hfn Hpure.
  assert (Hsrc : (src < length h1)%nat).
  { unfold elements in He. destruct (h1 !! src) eqn:Hl; [|done].
    by eapply lookup_lt_Some. }
  destruct (sort_values_pure fn (fun v => Some v ∈ es /\ v <> VUndefined)
              (h1 ++ [Object (Array es) ∅ true])
              ltac:(intros a b [? ?] [? ?]; by apply Hpure)
              (omap is_defined es) []) as (s & Hs & Hperm).
  { apply Forall_forall. intros v Hv. by apply elem_of_defined. }
  { done. }
  exists ((Some <$> s) ++ List.filter is_undefined es ++ List.filter is_hole es).
  split; [|split; [|split]].
  - unfold Index.sort. rewrite read_field_getter. simpl.
    rewrite (bind_Ok _ _ _ _ _ Harr).
    rewrite (bind_Ok _ _ _ _ _ (array_slice_copy _ _ _ He)).
    unfold array_sort.
    rewrite (bind_Ok _ _ _ _ _ (the_array_elements _ _ _ (elements_alloc _ _ _ _))).
    rewrite read_heap_bind, (callable_alloc _ _ _ Hfn), elements_alloc. simpl.
    rewrite (bind_Ok _ _ _ _ _ Hs). rewrite bind_unfold.
    unfold set_elements. rewrite lookup_alloc.
    rewrite insert_app_r_alt by done. by rewrite Nat.sub_diag.
  - rewrite app_nil_r in Hperm. rewrite Hperm. apply sort_partition.
  - lia.
  - by rewrite lookup_app_l.
Qed.

(** With a comparator that answers with a number and leaves the heap
    alone, a read of the field returns a new array holding the elements of
    the source in some order, and the source array is as it was. *)
Lemma sort_leaves_source path fn target key obj src es h h1 :
  Index.getArray H obj path h = Ok (VRef src) h1 ->
  elements h1 src = Some es ->
  callable h1 fn = true ->
  (forall a b h, exists n, invoke H fn VUndefined [a; b] h = Ok (VNumber n) h) ->
  exists sorted,
    read_field H (Index.sort H path fn target key) obj h
      = Ok (VRef (length h1)) (h1 ++ [Object (Array sorted) ∅ true]) /\
    sorted ≡ₚ es /\
    src <> length h1 /\
    (h1 ++ [Object (Array sorted) ∅ true]) !! src = h1 !! src.
Proof.
  intros Harr He Hfn Hpure. eapply sort_copy; [done..|].
  intros a b _ _ _ _. apply Hpure.
Qed.

(** [sortBy] likewise, when looking [key] up on an element of the source
    other than [undefined], in the heap that holds the copy, returns a
    number and leaves the heap alone. *)
Lemma sortBy_leaves_source path k asc target key obj src es h h1 :
  Index.getArray H obj path h = Ok (VRef src) h1 ->
  elements h1 src = Some es ->
  (forall a, Some a ∈ es -> a <> VUndefined ->
     exists x, js_get H a k (h1 ++ [Object (Array es) ∅ true])
               = Ok (VNumber x) (h1 ++ [Object (Array es) ∅ true])) ->
  exists sorted,
    read_field H (Index.sortBy H path k asc target key) obj h
      = Ok (VRef (length h1)) (h1 ++ [Object (Array sorted) ∅ true]) /\
    sorted ≡ₚ es /\
    src <> length h1 /\
    (h1 ++ [Object (Array sorted) ∅ true]) !! src = h1 !! src.
Proof.
  intros Harr He Hkey. unfold Index.sortBy.
  eapply sort_copy; [done..|].
  intros a b Ha Hna Hb Hnb. simpl.
  change (arg 0 [a; b]) with a. change (arg 1 [a; b]) with b.
  destruct (Hkey a Ha Hna) as [ak Hak]. destruct (Hkey b Hb Hnb) as [bk Hbk].
  rewrite (bind_Ok _ _ _ _ _ Hak), (bind_Ok _ _ _ _ _ Hbk).
  rewrite (bind_Ok _ _ _ _ _ (js_lt_numbers H ak bk _)).
  destruct (default false (num_less ak bk)); [by eexists|].
  rewrite (bind_Ok _ _ _ _ _ Hak), (bind_Ok _ _ _ _ _ Hbk).
  rewrite (bind_Ok _ _ _ _ _ (js_gt_numbers H ak bk _)).
  destruct (default false (num_less bk ak)); by eexists.
Qed.

End Sort.

(** ** The logical macros *)

Section Logical.
Variable H : host.

(** [and] and [or] of the single-file revision resolve every path with
    [getPath], in order, and fold [&&] (from [true]) and [||] (from [false])
    over the values from the left. *)
Lemma and_or_left_fold paths target key obj vs h h' :
  mapM (Utils.getPath H obj) paths h = Ok vs h' ->
  read_field H (Index.and H paths target key) obj h
    = Ok (fold_left (fun a b => if truthy a then b else a) vs (VBool true))
         (h' ++ [Object (Array (Some <$> vs)) ∅ true]) /\
  read_field H (Index.or H paths target key) obj h
    = Ok (fold_left (fun a b => if truthy a then a else b) vs (VBool false))
         (h' ++ [Object (Array (Some <$> vs)) ∅ true]).
Proof.
  intros Hvs.
  assert (Hpaths : Index.getPaths H obj paths h
            = Ok (VRef (length h')) (h' ++ [Object (Array (Some <$> vs)) ∅ true])).
  { unfold Index.getPaths, Utils.getPaths. by rewrite (bind_Ok _ _ _ _ _ Hvs). }
  split.
  - unfold Index.and. rewrite read_field_getter. simpl.
    rewrite (bind_Ok _ _ _ _ _ Hpaths).
    rewrite (array_fold_pure (fun a b => if truthy a then b else a) _ _ _ _ _
               (elements_alloc _ _ _ _)) by done.
    by rewrite omap_id_Some.
  - unfold Index.or. rewrite read_field_getter. simpl.
    rewrite (bind_Ok _ _ _ _ _ Hpaths).
    rewrite (array_fold_pure (fun a b => if truthy a then a else b) _ _ _ _ _
               (elements_alloc _ _ _ _)) by done.
    by rewrite omap_id_Some.
Qed.

End Logical.

(** ** The resolver on the objects of the test suite *)

Import Fixtures.

Lemma getPath_nullish_propagates_witness :
  js_get test_host (VRef 0) "empty" with_arrays = Ok VNull with_arrays /\
  Utils.getPath test_host (VRef 0) "empty" with_arrays = Ok VNull with_arrays /\
  Utils.getPath test_host (VRef 0) ("empty" +:+ "." +:+ "x.y") with_arrays
    = Ok VNull with_arrays.
Proof.
  split; [vm_compute; reflexivity|].
  apply (getPath_nullish_propagates test_host (VRef 0) "empty" "x.y" VNull
           with_arrays with_arrays).
  - vm_compute; reflexivity.
  - reflexivity.
Defined.

(** A member that is missing resolves to [undefined], and so does every
    path through it. *)
Example getPath_missing_member :
  Utils.getPath test_host (VRef 0) "a.c" nested = Ok VUndefined nested /\
  Utils.getPath test_host (VRef 0) "a.c.d.e" nested = Ok VUndefined nested.
Proof. split; vm_compute; reflexivity. Qed.

Lemma setPath_nullish_container_faults_witness :
  Utils.setPath test_host (VRef 0%nat) "a.c.d" (num 2) nested = Throw TypeError nested.
Proof.
  apply (setPath_nullish_container_faults test_host (VRef 0%nat) "a.c.d" (num 2)
           VUndefined nested nested).
  - vm_compute; reflexivity.
  - reflexivity.
Defined.



(** A container on its own path: writing [a] on [o.a = o] redirects the
    path [a.a]. *)
Example roundtrip_needs_stable_container :
  Utils.setPath test_host (VRef 0%nat) "a.a" (num 5) cyclic
    = Ok tt [ plain {[ "a" := data (num 5) ]} ] /\
  Utils.getPath test_host (VRef 0%nat) "a.a" [ plain {[ "a" := data (num 5) ]} ]
    = Ok VUndefined [ plain {[ "a" := data (num 5) ]} ].
Proof. split; vm_compute; reflexivity. Qed.

(** An empty first segment: [setPath] writes [b] on the root, [getPath]
    reads it on the member named by the empty string. *)
Example roundtrip_needs_segments :
  match Utils.setPath test_host (VRef 0%nat) ".b" (num 5) with_empty_key with
  | Ok _ h =>
      js_get test_host (VRef 0%nat) "b" h = Ok (num 5) h /\
      Utils.getPath test_host (VRef 0%nat) ".b" h = Ok VUndefined h
  | Throw _ _ => False
  end.
Proof. vm_compute. split; reflexivity. Qed.

(** A function stored under [get] is called by the next [getPath]. *)
Example roundtrip_needs_key_other_than_get :
  match Utils.setPath test_host (VRef 0) "get" (VRef 1) with_function with
  | Ok _ h =>
      js_get test_host (VRef 0) "get" h = Ok (VRef 1) h /\
      Utils.getPath test_host (VRef 0) "get" h = Ok VUndefined h
  | Throw _ _ => False
  end.
Proof. vm_compute. split; reflexivity. Qed.

(** A member that cannot be assigned makes [setPath] fault. *)
Example roundtrip_needs_assignable_key :
  Utils.setPath test_host (VRef 0) "b" (num 2) frozen = Throw TypeError frozen.
Proof. vm_compute; reflexivity. Qed.

(** C1 on the earliest revision of src/index.ts: its [getPath] looks the
    segment up on the object even when the object has a callable [get], so
    [foo.bar] through the container of the test suite is [undefined]; the
    member [get] is callable and [get('bar')] is ['baz'], which is what
    src/utils/index.ts returns. *)
Theorem legacy_getPath_never_calls_get :
  Legacy.getPath test_host (VRef 0%nat) "foo.bar" with_container
    = Ok VUndefined with_container /\
  is_function with_container (VRef 3%nat) = true /\
  js_get test_host (VRef 1%nat) "get" with_container = Ok (VRef 3%nat) with_container /\
  js_call test_host (VRef 3%nat) (VRef 1%nat) [VString "bar"] with_container
    = Ok (VString "baz") with_container /\
  Utils.getPath test_host (VRef 0%nat) "foo.bar" with_container
    = Ok (VString "baz") with_container.
Proof. repeat split; vm_compute; reflexivity. Qed.

(** C9 on the earliest revision of src/index.ts: its [getPaths] looks each
    path up as one member name, [obj[p]], so the operands of
    [or('qux.foo', 'qux.bar', 'qux.baz')] are three times [undefined] and the
    field reads [undefined]; resolved with [getPath] the operands are
    [false], [false], [true] and the field reads [true], as the test
    "@or - nested properties" expects and the single-file revision does. *)
Theorem legacy_getPaths_looks_up_one_member :
  let paths := ["qux.foo"; "qux.bar"; "qux.baz"] in
  mapM (js_get test_host (VRef 0)) paths with_flags
    = Ok [VUndefined; VUndefined; VUndefined] with_flags /\
  mapM (Utils.getPath test_host (VRef 0)) paths with_flags
    = Ok [VBool false; VBool false; VBool true] with_flags /\
  (exists h, read_field test_host (Legacy.or test_host paths VUndefined "fooOrBarOrBaz")
               (VRef 0) with_flags = Ok VUndefined h) /\
  (exists h, read_field test_host (Index.or test_host paths VUndefined "fooOrBarOrBaz")
               (VRef 0) with_flags = Ok (VBool true) h).
Proof. repeat split; try (eexists; vm_compute; reflexivity); vm_compute; reflexivity. Qed.

(** ** The macros on the objects of the test suite *)

Lemma reads_default_witness :
  read_field test_host (Index.reads test_host "foo" (Some (VRef 1)) VUndefined "fooReads")
    (VRef 0) with_default
    = Ok (VRef 2) (with_default ++ [empty_array]) /\
  read_field test_host (Index.reads test_host "foo" (Some (VRef 1)) VUndefined "fooReads")
    (VRef 0) (with_default ++ [empty_array])
    = Ok (VRef 3) (with_default ++ [empty_array] ++ [empty_array]) /\
  VRef 2 <> VRef 3.
Proof.
  assert (Hv : Utils.getPath test_host (VRef 0) "foo" with_default
                 = Ok VUndefined with_default) by (vm_compute; reflexivity).
  destruct (reads_default test_host "foo" (Some (VRef 1)) VUndefined "fooReads"
              (VRef 0) VUndefined with_default with_default Hv) as [_ Hfresh].
  apply (Hfresh 1%nat 1%nat ∅ true VUndefined).
  - reflexivity.
  - reflexivity.
  - reflexivity.
  - reflexivity.
  - vm_compute; reflexivity.
  - reflexivity.
Defined.


(** C7 on the earliest revision of src/index.ts: its [sort] sorts the array
    the path resolves to and returns that array, so after a read of
    [fooSorted] the source [foo] holds [3, 2, 1] instead of [1, 2, 3]; the
    single-file revision sorts a copy and leaves [foo] as it was, as the
    test "@sort" expects. *)
Theorem legacy_sort_sorts_the_source :
  let cmp := Ref (VRef 2) in
  let sorted := <[1%nat := array [num 3; num 2; num 1]]> with_arrays in
  js_get test_host (VRef 0) "foo" with_arrays = Ok (VRef 1) with_arrays /\
  elements with_arrays 1 = Some [Some (num 1); Some (num 2); Some (num 3)] /\
  read_field test_host (Legacy.sort test_host "foo" cmp VUndefined "fooSorted")
    (VRef 0) with_arrays = Ok (VRef 1) sorted /\
  elements sorted 1 = Some [Some (num 3); Some (num 2); Some (num 1)] /\
  read_field test_host (Index.sort test_host "foo" cmp VUndefined "fooSorted")
    (VRef 0) with_arrays
    = Ok (VRef 4) (with_arrays ++ [array [num 3; num 2; num 1]]).
Proof. repeat split; vm_compute; reflexivity. Qed.

(** The earliest revision of src/index.ts hands the null to [filter]. *)
Example legacy_filter_faults_on_null :
  read_field test_host
    (Legacy.filter test_host "empty" (Ref (VRef 3)) VUndefined "emptyFiltered")
    (VRef 0) with_arrays = Throw TypeError with_arrays.
Proof. vm_compute; reflexivity. Qed.

(** ** The examples of the specification *)

Example diff_example :
  contents (read_field test_host (Index.diff test_host ["a"; "b"; "c"] VUndefined "x")
              (VRef 0) with_sets)
    = Some [Some (num 1)].
Proof. vm_compute; reflexivity. Qed.

Example intersect_example :
  contents (read_field test_host (Index.intersect test_host ["a"; "d"] VUndefined "x")
              (VRef 0) with_sets)
    = Some [Some (num 1)].
Proof. vm_compute; reflexivity. Qed.

Example union_example :
  contents (read_field test_host (Index.union test_host ["b"; "d"; "a"] VUndefined "x")
              (VRef 0) with_sets)
    = Some [Some (num 2); Some (num 1); Some (num 4); Some (num 3)].
Proof. vm_compute; reflexivity. Qed.

Example uniqueBy_example :
  contents (read_field test_host (Index.uniqueBy test_host "arr" "k" VUndefined "x")
              (VRef 0) with_keys)
    = Some [Some (VRef 2); Some (VRef 3); Some (VRef 5)].
Proof. vm_compute; reflexivity. Qed.

(** [alias] through a container with [get] and [set] of its own: the write
    goes through [set], the read through [get]. *)
Example alias_through_get_and_set :
  let field := Index.alias test_host "foo.bar" VUndefined "barAlias" in
  match write_field test_host field (VRef 0) (VString "qux") with_container with
  | Ok _ h =>
      read_field test_host field (VRef 0) h = Ok (VString "qux") h /\
      js_get test_host (VRef 2) "bar" h = Ok (VString "qux") h
  | Throw _ _ => False
  end.
Proof. vm_compute. split; reflexivity. Qed.

(** * Further properties of the sources *)

(** ** The slicing of [setPath] *)

Lemma cut_last_rest c s pre post :
  cut_last c s = Some (pre, post) -> lastIndexOf c post = -1.
Proof.
  revert pre. induction s as [|a r IH]; intros pre; simpl; [done|].
  destruct (cut_last c r) as [[pre' post']|] eqn:Hr.
  - intros [= <- <-]. by eapply IH.
  - destruct (Ascii.eqb a c); [|done]. intros [= <- <-].
    pose proof (lastIndexOf_cut_last c r) as Hc. by rewrite Hr in Hc.
Qed.

(** X1. The two [substr] calls of [setPath] cut the path at its last dot:
    the key holds no dot, and either the path has no dot, the container
    path is empty and the key is the whole path, or the container path, a
    dot and the key make up the path again. *)
Theorem setPath_cuts_at_last_dot path :
  let objPath := substr path 0 (Some (lastIndexOf "." path)) in
  let key := substr path (lastIndexOf "." path + 1) None in
  lastIndexOf "." key = -1 /\
  ((lastIndexOf "." path = -1 /\ objPath = EmptyString /\ key = path) \/
   (0 <= lastIndexOf "." path /\ path = objPath +:+ "." +:+ key)).
Proof.
  cbv zeta. rewrite objPath_cut_last, key_cut_last.
  pose proof (lastIndexOf_cut_last "." path) as Hc.
  destruct (cut_last "." path) as [[pre post]|] eqn:Hcut.
  - destruct Hc as [Hi Hp]. split; [by eapply cut_last_rest|].
    right. split; [lia|done].
  - split; [done|]. by left.
Qed.

(** ** Heaps of plain data *)

Section DataOnly.
Variable H : host.

Lemma is_function_data_only h v : data_only h -> is_function h v = false.
Proof.
  intros Hd. destruct v as [| | | | |l]; simpl; try done.
  destruct (h !! l) as [[[|es|f] p e]|] eqn:Hl; try done.
  by destruct (proj1 (Hd l _ Hl) f).
Qed.

(** On plain data a member lookup returns without touching the heap, or
    faults whatever the key: on null, undefined and a dangling reference. *)
Lemma js_get_data_only h v :
  data_only h ->
  (forall k, exists x, js_get H v k h = Ok x h) \/
  ((forall k, js_get H v k h = Throw TypeError h) /\
   (forall k x, js_set H v k x h = Throw TypeError h)).
Proof.
  intros Hd. destruct v as [| | | | |l]; simpl;
    try (by right); try (by left; eexists).
  destruct (h !! l) as [o|] eqn:Hl; [left|by right].
  intros k. destruct (Hd l o Hl) as [_ Hacc].
  assert (Hm : exists x,
    match props o !! k with
    | Some (Data x _) => ret x
    | Some (Accessor (Some g) _) => call H g (VRef l) []
    | Some (Accessor None _) => ret VUndefined
    | None => ret VUndefined
    end h = Ok x h).
  { destruct (props o !! k) as [[x w|g s]|] eqn:Hk; [by eexists| |by eexists].
    by destruct (Hacc k g s). }
  destruct (kind_of o) as [|es|f]; [done| |done].
  destruct (String.eqb k "length"); [by eexists|].
  destruct (array_index k) as [i|]; [|done].
  destruct (es !! i) as [[x|]|]; [by eexists|done..].
Qed.

Lemma next_value_data_only h current segment :
  data_only h ->
  next_value H current segment h = js_get H current segment h /\
  ((exists x, js_get H current segment h = Ok x h) \/
   js_get H current segment h = Throw TypeError h).
Proof.
  intros Hd. unfold next_value.
  destruct (js_get_data_only h current Hd) as [Hok|[Hfault _]].
  - destruct (Hok "get") as [g Hg]. rewrite (bind_Ok _ _ _ _ _ Hg), read_heap_bind.
    rewrite is_function_data_only by done. split; [done|]. left. apply Hok.
  - rewrite (bind_Throw _ _ _ _ _ (Hfault "get")), Hfault. split; [done|by right].
Qed.

Lemma getPath_loop_data_only h segments current :
  data_only h ->
  Legacy.getPath_loop H segments current h = Utils.getPath_loop H segments current h /\
  ((exists v, Utils.getPath_loop H segments current h = Ok v h) \/
   Utils.getPath_loop H segments current h = Throw TypeError h).
Proof.
  intros Hd. revert current.
  induction segments as [|segment rest IH]; intros current.
  - split; [done|]. left. by eexists.
  - destruct (is_nullish current) eqn:Hn.
    + simpl. rewrite Hn. split; [done|]. left. by eexists.
    + rewrite getPath_loop_cons by done. simpl. rewrite Hn.
      rewrite !bind_unfold.
      destruct (next_value_data_only h current segment Hd) as [Heq Hcases].
      rewrite Heq. destruct Hcases as [[x Hx]|Hx]; rewrite Hx.
      * apply IH.
      * split; [done|by right].
Qed.

(** X2. On a heap of plain data [getPath] only reads: it returns a value
    and leaves the heap as it was, or faults with a TypeError, the heap
    again as it was. *)
Theorem getPath_only_reads_plain_data obj path h :
  data_only h ->
  (exists v, Utils.getPath H obj path h = Ok v h) \/
  Utils.getPath H obj path h = Throw TypeError h.
Proof. intros Hd. apply getPath_loop_data_only, Hd. Qed.

(** X3. On a heap of plain data the path helpers of the earliest revision
    of src/index.ts and those of src/utils/index.ts are the same functions:
    [getPath] returns the same outcome, and so does [setPath]. *)
Theorem revisions_agree_on_plain_data obj path x h :
  data_only h ->
  Legacy.getPath H obj path h = Utils.getPath H obj path h /\
  Legacy.setPath H obj path x h = Utils.setPath H obj path x h.
Proof.
  intros Hd. split; [apply getPath_loop_data_only, Hd|].
  unfold Legacy.setPath, Utils.setPath. rewrite !bind_unfold.
  assert (Hres : forall p,
    Legacy.getPath H obj p h = Utils.getPath H obj p h /\
    ((exists v, Utils.getPath H obj p h = Ok v h) \/
     Utils.getPath H obj p h = Throw TypeError h))
    by (intros p; apply getPath_loop_data_only, Hd).
  destruct (truthy (VString (substr path 0 (Some (lastIndexOf "." path))))).
  - destruct (Hres (substr path 0 (Some (lastIndexOf "." path))))
      as [Heq Hcases].
    rewrite Heq. destruct Hcases as [[c Hc]|Hc]; rewrite Hc; [|done].
    destruct (js_get_data_only h c Hd) as [Hok|[Hfault Hset]].
    + destruct (Hok "set") as [s Hs].
      rewrite (bind_Ok _ _ _ _ _ Hs), read_heap_bind.
      by rewrite is_function_data_only.
    + by rewrite (bind_Throw _ _ _ _ _ (Hfault "set")), Hset.
  - rewrite !mret_unfold.
    destruct (js_get_data_only h obj Hd) as [Hok|[Hfault Hset]].
    + destruct (Hok "set") as [s Hs].
      rewrite (bind_Ok _ _ _ _ _ Hs), read_heap_bind.
      by rewrite is_function_data_only.
    + by rewrite (bind_Throw _ _ _ _ _ (Hfault "set")), Hset.
Qed.

End DataOnly.

Lemma data_only_check h : forallb plain_data h = true -> data_only h.
Proof.
  intros Hall l o Hl.
  assert (Ho : plain_data o = true).
  { rewrite forallb_forall in Hall. apply Hall.
    apply list_elem_of_In. by eapply list_elem_of_lookup_2. }
  unfold plain_data in Ho. split.
  - intros f Hf. by rewrite Hf in Ho.
  - intros k g s Hk. destruct (kind_of o); [|..|done];
      apply bool_decide_eq_true in Ho; by specialize (Ho k _ Hk).
Qed.

(** ** [getPaths] *)

Section GetPaths.
Variable H : host.

Lemma mapM_Forall2 {A B} (f : A -> M B) xs ys h h' :
  mapM f xs h = Ok ys h' ->
  Forall2 (fun x y => exists ha hb, f x ha = Ok y hb) xs ys.
Proof.
  revert ys h h'. induction xs as [|x xs IH]; intros ys h h'.
  - intros [= <- _]. constructor.
  - rewrite mapM_cons, bind_unfold.
    destruct (f x h) as [y h1|] eqn:Hy; [|done].
    rewrite bind_unfold.
    destruct (mapM f xs h1) as [ys' h2|] eqn:Hys; [|done].
    rewrite mret_unfold.
    intros [= <- _]. constructor; [by exists h, h1|by eapply IH].
Qed.

(** Steps that leave the heap alone are mapped one by one. *)
Lemma mapM_pure {A B} (f : A -> M B) (g : A -> B) xs h :
  Forall (fun x => f x h = Ok (g x) h) xs ->
  mapM f xs h = Ok (g <$> xs) h.
Proof.
  induction 1 as [|x xs Hx _ IH]; [done|].
  by rewrite mapM_cons, (bind_Ok _ _ _ _ _ Hx), (bind_Ok _ _ _ _ _ IH).
Qed.

(** The step at index [i] runs in the heap the steps before it left. *)
Lemma mapM_lookup {A B} (f : A -> M B) xs ys h h' i x :
  mapM f xs h = Ok ys h' ->
  xs !! i = Some x ->
  exists y ha hb,
    ys !! i = Some y /\
    mapM f (take i xs) h = Ok (take i ys) ha /\
    f x ha = Ok y hb.
Proof.
  revert ys h i. induction xs as [|x0 xs IH]; intros ys h i; [done|].
  rewrite mapM_cons, bind_unfold.
  destruct (f x0 h) as [y0 h1|] eqn:Hy; [|done].
  rewrite bind_unfold.
  destruct (mapM f xs h1) as [ys' h2|] eqn:Hys; [|done].
  rewrite mret_unfold. intros [= <- <-] Hi.
  destruct i as [|i].
  - injection Hi as <-. by exists y0, h, h1.
  - destruct (IH ys' h1 i Hys Hi) as (y & ha & hb & Hyi & Htake & Hx).
    exists y, ha, hb. split; [done|]. split; [|done].
    cbn [take]. rewrite mapM_cons, (bind_Ok _ _ _ _ _ Hy).
    by rewrite (bind_Ok _ _ _ _ _ Htake).
Qed.

(** X4. When [getPaths] returns, it returns a new array without holes that
    holds one value per path, in the order of the paths: the value at
    index [i] is what [getPath] returns for the path at index [i], in the
    heap the resolution of the paths before it left. Nothing is dropped
    and nothing is merged. *)
Theorem getPaths_one_value_per_path obj paths r h h' :
  Utils.getPaths H obj paths h = Ok r h' ->
  exists vs h1,
    mapM (Utils.getPath H obj) paths h = Ok vs h1 /\
    r = VRef (length h1) /\
    h' = h1 ++ [Object (Array (Some <$> vs)) ∅ true] /\
    length vs = length paths /\
    (forall i p, paths !! i = Some p ->
       exists v ha hb,
         vs !! i = Some v /\
         mapM (Utils.getPath H obj) (take i paths) h = Ok (take i vs) ha /\
         Utils.getPath H obj p ha = Ok v hb).
Proof.
  unfold Utils.getPaths. rewrite bind_unfold.
  destruct (mapM (Utils.getPath H obj) paths h) as [vs h1|] eqn:Hvs; [|done].
  intros [= <- <-]. exists vs, h1.
  pose proof (mapM_Forall2 _ _ _ _ _ Hvs) as Hall.
  split; [done|]. split; [done|]. split; [done|].
  split; [symmetry; by eapply Forall2_length|].
  intros i p Hi. by eapply mapM_lookup.
Qed.

End GetPaths.

(** ** [setPath] and [alias] on a plain object *)

Section PlainWrites.
Variable H : host.

(** X5. On a plain container without [set] member, [setPath] changes the
    final key of the container and nothing else: every other object of
    the heap, the kind of the container and its other members stay as
    resolution left them, and no object is created. *)
Theorem setPath_changes_one_member obj path x c o h h1 :
  container H obj path h = Ok (VRef c) h1 ->
  h1 !! c = Some o ->
  kind_of o = Plain ->
  props o !! "set" = None ->
  assignable o (final_key path) ->
  exists h2 o',
    Utils.setPath H obj path x h = Ok tt h2 /\
    length h2 = length h1 /\
    (forall l, l <> c -> h2 !! l = h1 !! l) /\
    h2 !! c = Some o' /\
    kind_of o' = kind_of o /\
    extensible o' = extensible o /\
    props o' !! final_key path = Some (Data x true) /\
    (forall k, k <> final_key path -> props o' !! k = props o !! k).
Proof.
  intros Hc Ho Hplain Hset Hslot.
  exists (<[c := with_member o (final_key path) x]> h1),
         (with_member o (final_key path) x).
  assert (Hlt : (c < length h1)%nat) by (by eapply lookup_lt_Some).
  split.
  { rewrite setPath_container, (bind_Ok _ _ _ _ _ Hc).
    rewrite (bind_Ok _ _ _ _ _ (js_get_plain_absent H _ _ _ _ Ho Hplain Hset)).
    rewrite read_heap_bind. simpl. by apply js_set_plain. }
  split; [apply length_insert|].
  split; [by intros l Hl; apply list_lookup_insert_ne|].
  split; [by apply list_lookup_insert_eq|].
  split; [done|]. split; [done|].
  split; [apply lookup_insert_eq|].
  intros k Hk. by apply lookup_insert_ne.
Qed.

(** X6. [alias] binds both ways on a plain object: for a path without dot
    other than [get], on an instance without [get] or [set] member whose
    slot can be assigned, a write through the alias stores the value under
    the aliased name, and a read through the alias then returns it. *)
Theorem alias_binds_both_ways path target key l o x h :
  lastIndexOf "." path = -1 ->
  path <> "get" ->
  h !! l = Some o ->
  kind_of o = Plain ->
  props o !! "get" = None ->
  props o !! "set" = None ->
  assignable o path ->
  exists h',
    write_field H (Index.alias H path target key) (VRef l) x h = Ok tt h' /\
    js_get H (VRef l) path h' = Ok x h' /\
    read_field H (Index.alias H path target key) (VRef l) h' = Ok x h'.
Proof.
  intros Hdot Hget0 Ho Hplain Hget Hset Hslot.
  pose proof (lastIndexOf_cut_last "." path) as Hcut.
  destruct (cut_last "." path) as [[pre post]|] eqn:Hc; [lia|].
  assert (Hkey : final_key path = path) by (unfold final_key; by rewrite Hc).
  assert (Hcont : forall h0, container H (VRef l) path h0 = Ok (VRef l) h0)
    by (intros h0; unfold container; by rewrite Hc).
  assert (Hlt : (l < length h)%nat) by (by eapply lookup_lt_Some).
  exists (<[l := with_member o path x]> h).
  pose proof (list_lookup_insert_eq h l (with_member o path x) Hlt) as Ho'.
  assert (Hread : js_get H (VRef l) path (<[l := with_member o path x]> h)
                    = Ok x (<[l := with_member o path x]> h)).
  { eapply js_get_plain_data; [exact Ho'|done|]. simpl. apply lookup_insert_eq. }
  split; [|split; [exact Hread|]].
  - unfold Index.alias, write_field. simpl.
    change (arg 0 [VRef l; VString key; arg 0 [x]]) with (VRef l).
    change (arg 2 [VRef l; VString key; arg 0 [x]]) with x.
    unfold Index.setPath. rewrite !bind_unfold, setPath_container.
    rewrite (bind_Ok _ _ _ _ _ (Hcont h)), Hkey.
    rewrite (bind_Ok _ _ _ _ _ (js_get_plain_absent H _ _ _ _ Ho Hplain Hset)).
    rewrite read_heap_bind. cbn [is_function].
    by rewrite (js_set_plain H _ _ _ _ _ Ho Hplain Hslot).
  - unfold Index.alias, read_field. simpl.
    change (arg 0 [VRef l; VString key]) with (VRef l).
    unfold Index.getPath, Utils.getPath.
    rewrite split_cut_last, Hc.
    rewrite getPath_loop_cons by done. unfold next_value.
    rewrite bind_assoc.
    rewrite (bind_Ok _ _ _ _ _ (js_get_plain_absent H _ _ "get" _ Ho' Hplain
               ltac:(by simpl; rewrite lookup_insert_ne))).
    rewrite bind_assoc, read_heap_bind. simpl.
    by rewrite (bind_Ok _ _ _ _ _ Hread).
Qed.

End PlainWrites.

(** ** [and] and [or] return operands *)

Section AndOr.
Variable H : host.

Lemma last_cons_default (v a : value) vs : List.last (v :: vs) a = List.last vs v.
Proof.
  revert v a. induction vs as [|w vs IH]; intros v a; [done|].
  change (List.last (v :: w :: vs) a) with (List.last (w :: vs) a).
  rewrite IH. symmetry. apply IH.
Qed.

Lemma fold_and_first_falsy vs a :
  fold_left (fun a b => if truthy a then b else a) vs a =
    if truthy a then
      match List.find (fun v => negb (truthy v)) vs with
      | Some v => v
      | None => List.last vs a
      end
    else a.
Proof.
  revert a. induction vs as [|v vs IH]; intros a.
  - simpl. by destruct (truthy a).
  - cbn [fold_left List.find]. rewrite IH, last_cons_default.
    destruct (truthy a) eqn:Ha; [|by rewrite Ha].
    by destruct (truthy v).
Qed.

Lemma fold_or_first_truthy vs a :
  fold_left (fun a b => if truthy a then a else b) vs a =
    if truthy a then a
    else
      match List.find truthy vs with
      | Some v => v
      | None => List.last vs a
      end.
Proof.
  revert a. induction vs as [|v vs IH]; intros a.
  - simpl. by destruct (truthy a).
  - cbn [fold_left List.find]. rewrite IH, last_cons_default.
    destruct (truthy a) eqn:Ha; [by rewrite Ha|].
    by destruct (truthy v).
Qed.

Lemma find_falsy_forallb vs :
  match List.find (fun v => negb (truthy v)) vs with
  | Some v => truthy v = false /\ forallb truthy vs = false
  | None => forallb truthy vs = true
  end.
Proof.
  induction vs as [|v vs IH]; simpl; [done|].
  destruct (truthy v) eqn:Hv; simpl; [exact IH|done].
Qed.

Lemma find_truthy_existsb vs :
  match List.find truthy vs with
  | Some v => truthy v = true /\ existsb truthy vs = true
  | None => existsb truthy vs = false
  end.
Proof.
  induction vs as [|v vs IH]; simpl; [done|].
  destruct (truthy v) eqn:Hv; simpl; [done|exact IH].
Qed.

Lemma last_truthy vs a :
  forallb truthy vs = true -> truthy a = true -> truthy (List.last vs a) = true.
Proof.
  induction vs as [|v vs IH]; simpl; [done|].
  intros [Hv Hvs]%andb_prop Ha. destruct vs as [|w vs]; [done|]. by apply IH.
Qed.

Lemma last_falsy vs a :
  existsb truthy vs = false -> truthy a = false -> truthy (List.last vs a) = false.
Proof.
  induction vs as [|v vs IH]; simpl; [done|].
  intros [Hv Hvs]%orb_false_elim Ha. destruct vs as [|w vs]; [done|]. by apply IH.
Qed.

(** X7. [and] returns an operand, not a boolean: the first resolved value
    that is falsy, the last resolved value when none is, and [true] without
    paths; the result is truthy exactly when every resolved value is. *)
Theorem and_returns_first_falsy paths target key obj vs h h' :
  mapM (Utils.getPath H obj) paths h = Ok vs h' ->
  exists r h'',
    read_field H (Index.and H paths target key) obj h = Ok r h'' /\
    r = match List.find (fun v => negb (truthy v)) vs with
        | Some v => v
        | None => List.last vs (VBool true)
        end /\
    truthy r = forallb truthy vs.
Proof.
  intros Hvs. destruct (and_or_left_fold H paths target key obj vs h h' Hvs) as [Hand _].
  eexists _, _. split; [exact Hand|].
  rewrite fold_and_first_falsy. simpl.
  split; [done|].
  pose proof (find_falsy_forallb vs) as Hf.
  destruct (List.find _ vs) as [v|].
  - destruct Hf as [-> ->]. done.
  - rewrite Hf. by apply last_truthy.
Qed.

(** X8. [or] returns the first resolved value that is truthy, the last
    resolved value when none is, and [false] without paths; the result is
    truthy exactly when some resolved value is. *)
Theorem or_returns_first_truthy paths target key obj vs h h' :
  mapM (Utils.getPath H obj) paths h = Ok vs h' ->
  exists r h'',
    read_field H (Index.or H paths target key) obj h = Ok r h'' /\
    r = match List.find truthy vs with
        | Some v => v
        | None => List.last vs (VBool false)
        end /\
    truthy r = existsb truthy vs.
Proof.
  intros Hvs. destruct (and_or_left_fold H paths target key obj vs h h' Hvs) as [_ Hor].
  eexists _, _. split; [exact Hor|].
  rewrite fold_or_first_truthy. simpl.
  split; [done|].
  pose proof (find_truthy_existsb vs) as Hf.
  destruct (List.find _ vs) as [v|].
  - destruct Hf as [-> ->]. done.
  - rewrite Hf. by apply last_falsy.
Qed.

(** X9. [and] and [or] resolve all their paths before they combine
    anything: a path whose resolution faults makes the read fault, whatever
    the values of the paths before it, a falsy one for [and] or a truthy one
    for [or] included. *)
Theorem and_or_resolve_every_path before p after target key obj vs e h h1 h2 :
  mapM (Utils.getPath H obj) before h = Ok vs h1 ->
  Utils.getPath H obj p h1 = Throw e h2 ->
  read_field H (Index.and H (before ++ p :: after) target key) obj h = Throw e h2 /\
  read_field H (Index.or H (before ++ p :: after) target key) obj h = Throw e h2.
Proof.
  intros Hb Hp.
  assert (Hpaths : Index.getPaths H obj (before ++ p :: after) h = Throw e h2).
  { unfold Index.getPaths, Utils.getPaths. rewrite bind_unfold.
    rewrite mapM_app, (bind_Ok _ _ _ _ _ Hb), bind_unfold, mapM_cons.
    by rewrite (bind_Throw _ _ _ _ _ Hp). }
  split.
  - unfold Index.and. rewrite read_field_getter. simpl.
    by rewrite (bind_Throw _ _ _ _ _ Hpaths).
  - unfold Index.or. rewrite read_field_getter. simpl.
    by rewrite (bind_Throw _ _ _ _ _ Hpaths).
Qed.

End AndOr.

(** ** The comparison macros *)

Section Comparisons.
Variable H : host.

Lemma num_lt_trichotomy x y :
  x <> NaN -> y <> NaN ->
  (num_lt x y = true /\ x <> y /\ num_lt y x = false) \/
  (num_lt x y = false /\ x = y /\ num_lt y x = false) \/
  (num_lt x y = false /\ x <> y /\ num_lt y x = true).
Proof.
  intros Hx Hy. destruct x as [| |a|], y as [| |b|]; simpl; try done;
    try (by left); try (by right; left); try (by right; right).
  destruct (Z.lt_trichotomy a b) as [Hab|[->|Hab]].
  - left. split; [by apply Z.ltb_lt|]. split; [intros [=]; lia|apply Z.ltb_ge; lia].
  - right. left. by rewrite Z.ltb_irrefl.
  - right. right. split; [apply Z.ltb_ge; lia|].
    split; [intros [=]; lia|by apply Z.ltb_lt].
Qed.

Lemma strict_equal_numbers x y :
  x <> NaN -> y <> NaN ->
  strict_equal (VNumber x) (VNumber y) = bool_decide (x = y).
Proof.
  intros Hx Hy. destruct x, y; try done; simpl;
    repeat case_bool_decide; try done; congruence.
Qed.

Lemma num_less_numbers x y :
  x <> NaN -> y <> NaN -> num_less x y = Some (num_lt x y).
Proof. intros Hx Hy. by destruct x, y. Qed.

Lemma num_less_NaN x y : x = NaN \/ y = NaN -> num_less x y = None.
Proof. intros [->| ->]; [done|by destruct x]. Qed.

(** X10. For a path that resolves to a number and a number to compare it
    with: when either is NaN the five macros [lt], [gt], [equal], [lte] and
    [gte] all read [false]; otherwise exactly one of [lt], [equal] and [gt]
    reads [true], [lte] is the negation of [gt] and [gte] the negation of
    [lt]. *)
Theorem comparisons_of_numbers path target key obj x y h h' :
  Utils.getPath H obj path h = Ok (VNumber x) h' ->
  exists blt bgt beq ble bge,
    read_field H (Index.lt H path (VNumber y) target key) obj h = Ok (VBool blt) h' /\
    read_field H (Index.gt H path (VNumber y) target key) obj h = Ok (VBool bgt) h' /\
    read_field H (Index.equal H path (VNumber y) target key) obj h = Ok (VBool beq) h' /\
    read_field H (Index.lte H path (VNumber y) target key) obj h = Ok (VBool ble) h' /\
    read_field H (Index.gte H path (VNumber y) target key) obj h = Ok (VBool bge) h' /\
    (((x = NaN \/ y = NaN) /\
      blt = false /\ bgt = false /\ beq = false /\ ble = false /\ bge = false) \/
     (x <> NaN /\ y <> NaN /\ ble = negb bgt /\ bge = negb blt /\
      ((blt = true /\ beq = false /\ bgt = false) \/
       (blt = false /\ beq = true /\ bgt = false) \/
       (blt = false /\ beq = false /\ bgt = true)))).
Proof.
  intros Hv.
  exists (default false (num_less x y)), (default false (num_less y x)),
         (strict_equal (VNumber x) (VNumber y)),
         (default false (negb <$> num_less y x)), (default false (negb <$> num_less x y)).
  split.
  { unfold Index.lt. rewrite read_field_getter. cbn [arg nth]. unfold Index.getPath.
    rewrite (bind_Ok _ _ _ _ _ Hv).
    by rewrite (bind_Ok _ _ _ _ _ (js_lt_numbers H x y h')). }
  split.
  { unfold Index.gt. rewrite read_field_getter. cbn [arg nth]. unfold Index.getPath.
    rewrite (bind_Ok _ _ _ _ _ Hv).
    by rewrite (bind_Ok _ _ _ _ _ (js_gt_numbers H x y h')). }
  split.
  { unfold Index.equal. rewrite read_field_getter. cbn [arg nth]. unfold Index.getPath.
    by rewrite (bind_Ok _ _ _ _ _ Hv). }
  split.
  { unfold Index.lte. rewrite read_field_getter. cbn [arg nth]. unfold Index.getPath.
    rewrite (bind_Ok _ _ _ _ _ Hv).
    by rewrite (bind_Ok _ _ _ _ _ (js_le_numbers H x y h')). }
  split.
  { unfold Index.gte. rewrite read_field_getter. cbn [arg nth]. unfold Index.getPath.
    rewrite (bind_Ok _ _ _ _ _ Hv).
    by rewrite (bind_Ok _ _ _ _ _ (js_ge_numbers H x y h')). }
  destruct (decide (x = NaN)) as [->|Hx].
  { left. split; [by left|]. by destruct y. }
  destruct (decide (y = NaN)) as [->|Hy].
  { left. split; [by right|]. by destruct x. }
  right. split; [done|]. split; [done|].
  rewrite !num_less_numbers by done. cbn [default fmap option_fmap option_map].
  rewrite strict_equal_numbers by done.
  split; [done|]. split; [done|].
  destruct (num_lt_trichotomy x y Hx Hy)
    as [(-> & Hne & ->)|[(-> & He & ->)|(-> & Hne & ->)]].
  - left. by rewrite bool_decide_eq_false_2.
  - right. left. by rewrite bool_decide_eq_true_2.
  - right. right. by rewrite bool_decide_eq_false_2.
Qed.

End Comparisons.

(** ** [empty] and the array macros *)

Section Empty.
Variable H : host.

Lemma isEmpty_true v h h' :
  Index.isEmpty H v h = Ok true h' ->
  h' = h /\
  (truthy v = false \/ exists l, v = VRef l /\ elements h l = Some []).
Proof.
  unfold Index.isEmpty. destruct (truthy v) eqn:Hv; simpl.
  - rewrite read_heap_bind. destruct v as [| | | | |l]; simpl; try done.
    unfold elements. destruct (h !! l) as [[[|es|f] p e]|] eqn:Hl; simpl; try done.
    rewrite bind_unfold. unfold js_get. rewrite Hl. simpl.
    destruct es as [|x es]; simpl; [|done].
    intros [= <-]. split; [done|]. right. exists l. split; [done|].
    unfold elements. by rewrite Hl.
  - intros [= <-]. split; [done|by left].
Qed.

(** X11. When [empty(path)] reads [true] on a path whose resolution leaves
    the heap alone, [notEmpty(path)] reads [false], [filter(path, fn)] and
    [map(path, fn)] return an array without elements for every function
    [fn], and [sum(path)] is 0. *)
Theorem empty_means_no_elements path target key obj v fn h :
  Utils.getPath H obj path h = Ok v h ->
  read_field H (Index.empty H path target key) obj h = Ok (VBool true) h ->
  callable h fn = true ->
  read_field H (Index.notEmpty H path target key) obj h = Ok (VBool false) h /\
  (exists l h', read_field H (Index.filter H path fn target key) obj h = Ok (VRef l) h' /\
                elements h' l = Some []) /\
  (exists l h', read_field H (Index.map H path fn target key) obj h = Ok (VRef l) h' /\
                elements h' l = Some []) /\
  (exists h', read_field H (Index.sum H path target key) obj h
                = Ok (VNumber (Finite 0)) h').
Proof.
  intros Hv Hempty Hfn.
  assert (He : Index.isEmpty H v h = Ok true h).
  { revert Hempty. unfold Index.empty. rewrite read_field_getter. simpl.
    unfold Index.getPath. rewrite (bind_Ok _ _ _ _ _ Hv), bind_unfold.
    destruct (Index.isEmpty H v h) as [e h1|]; [|done].
    by intros [= -> ->]. }
  split.
  { unfold Index.notEmpty. rewrite read_field_getter. simpl.
    unfold Index.getPath. by rewrite (bind_Ok _ _ _ _ _ Hv), (bind_Ok _ _ _ _ _ He). }
  destruct (isEmpty_true v h h He) as [_ [Hfalsy|(l & -> & Hl)]].
  - pose proof (getArray_falsy H obj path v h h Hv Hfalsy) as Harr.
    assert (Hnew : elements (h ++ [empty_array]) (length h) = Some [])
      by apply elements_alloc.
    pose proof (callable_alloc h empty_array fn Hfn) as Hfn'.
    split; [|split].
    + eexists _, _. unfold Index.filter. rewrite read_field_getter. simpl.
      rewrite (bind_Ok _ _ _ _ _ Harr).
      rewrite (array_filter_empty H fn _ _ Hnew Hfn'). split; [done|].
      apply elements_alloc.
    + eexists _, _. unfold Index.map. rewrite read_field_getter. simpl.
      rewrite (bind_Ok _ _ _ _ _ Harr).
      rewrite (array_map_empty H fn _ _ Hnew Hfn'). split; [done|].
      apply elements_alloc.
    + eexists. unfold Index.sum. rewrite read_field_getter. simpl.
      rewrite (bind_Ok _ _ _ _ _ Harr). by apply array_fold_empty.
  - assert (Harr : Index.getArray H obj path h = Ok (VRef l) h).
    { unfold Index.getArray, Index.getPath. by rewrite (bind_Ok _ _ _ _ _ Hv). }
    split; [|split].
    + eexists _, _. unfold Index.filter. rewrite read_field_getter. simpl.
      rewrite (bind_Ok _ _ _ _ _ Harr).
      rewrite (array_filter_empty H fn _ _ Hl Hfn). split; [done|].
      apply elements_alloc.
    + eexists _, _. unfold Index.map. rewrite read_field_getter. simpl.
      rewrite (bind_Ok _ _ _ _ _ Harr).
      rewrite (array_map_empty H fn _ _ Hl Hfn). split; [done|].
      apply elements_alloc.
    + eexists. unfold Index.sum. rewrite read_field_getter. simpl.
      rewrite (bind_Ok _ _ _ _ _ Harr). by apply array_fold_empty.
Qed.

End Empty.

(** ** The array macros as list functions *)

Section Lists.
Variable H : host.

(** A loop whose body, on the elements the array holds, leaves the heap
    alone is a fold over them. *)
Lemma iterate_pure_on {A} (g : A -> option value -> A) body l es h n :
  elements h l = Some es ->
  (forall acc k x, es !! k = Some x -> body acc k x h = Ok (g acc x) h) ->
  forall k acc,
    (k + n <= length es)%nat ->
    iterate (A := A) l k n body acc h = Ok (fold_left g (take n (drop k es)) acc) h.
Proof.
  intros He Hbody. induction n as [|n IH]; intros k acc Hk; simpl; [done|].
  destruct (lookup_lt_is_Some_2 es k ltac:(lia)) as [x Hx].
  rewrite (bind_Ok _ _ _ _ _ (element_elements _ _ _ _ _ He Hx)).
  rewrite (bind_Ok _ _ _ _ _ (Hbody acc k x Hx)).
  rewrite IH by lia. by rewrite (drop_S _ _ _ Hx).
Qed.

Lemma array_fold_pure_on {A} (g : A -> value -> A) body init l es h :
  elements h l = Some es ->
  (forall acc v, Some v ∈ es -> body acc v h = Ok (g acc v) h) ->
  array_fold (A := A) body init (VRef l) h = Ok (fold_left g (present es) init) h.
Proof.
  intros He Hbody. unfold array_fold.
  rewrite (bind_Ok _ _ _ _ _ (the_array_elements _ _ _ He)).
  rewrite (bind_Ok _ _ _ _ _ (array_length_elements _ _ _ He)).
  rewrite (iterate_pure_on
             (fun acc x => match x with Some v => g acc v | None => acc end)
             _ _ _ _ _ He); [| |simpl; lia].
  - by rewrite drop_0, firstn_all, fold_left_present.
  - intros acc k [v|] Hk; [|done]. apply Hbody. by eapply list_elem_of_lookup_2.
Qed.

(** The loop of [filter] with a callback that, on the elements of the
    array at their indices, returns and leaves the heap alone. *)
Lemma iterate_filter fn (p : nat -> value -> value) arr l es h :
  elements h l = Some es ->
  (forall v k, es !! k = Some (Some v) ->
     invoke H fn VUndefined [v; index_value k; arr] h = Ok (p k v) h) ->
  forall n k acc,
    (k + n <= length es)%nat ->
    iterate l k n
      (fun acc k x =>
         match x with
         | Some v =>
             selected ← invoke H fn VUndefined [v; index_value k; arr];
             mret (if truthy selected then acc ++ [Some v] else acc)
         | None => mret acc
         end) acc h
      = Ok (acc ++ (Some <$> kept_from (fun k v => truthy (p k v)) k (take n (drop k es)))) h.
Proof.
  intros He Hp. induction n as [|n IH]; intros k acc Hk; cbn [iterate].
  - by rewrite take_0, app_nil_r.
  - destruct (lookup_lt_is_Some_2 es k ltac:(lia)) as [x Hx].
    rewrite (bind_Ok _ _ _ _ _ (element_elements _ _ _ _ _ He Hx)).
    rewrite (drop_S _ _ _ Hx). cbn [take kept_from].
    destruct x as [v|].
    + rewrite bind_assoc, (bind_Ok _ _ _ _ _ (Hp v k Hx)).
      rewrite bind_unfold, mret_unfold, IH by lia.
      destruct (truthy (p k v)); [|done].
      by rewrite <- app_assoc.
    + rewrite bind_unfold, mret_unfold. by rewrite IH by lia.
Qed.

Lemma array_filter_indexed fn (p : nat -> value -> value) l es h :
  elements h l = Some es ->
  callable h fn = true ->
  (forall v k, es !! k = Some (Some v) ->
     invoke H fn VUndefined [v; index_value k; VRef l] h = Ok (p k v) h) ->
  array_filter H fn (VRef l) h
    = Ok (VRef (length h))
         (h ++ [Object (Array (Some <$> kept (fun k v => truthy (p k v)) es)) ∅ true]).
Proof.
  intros He Hfn Hp. unfold array_filter.
  rewrite (bind_Ok _ _ _ _ _ (the_array_elements _ _ _ He)).
  rewrite (bind_Ok _ _ _ _ _ (array_length_elements _ _ _ He)).
  rewrite read_heap_bind, Hfn, bind_unfold.
  rewrite (iterate_filter fn p (VRef l) l es h He Hp) by (simpl; lia).
  by rewrite drop_0, firstn_all.
Qed.

Lemma kept_from_filter (q : value -> bool) k es :
  kept_from (fun _ v => q v) k es = List.filter q (present es).
Proof.
  revert k. induction es as [|[v|] es IH]; intros k; cbn [kept_from]; [done| |].
  - unfold present. cbn. rewrite IH. by destruct (q v).
  - apply IH.
Qed.

(** [filter] with a callback whose answer depends on the element only. *)
Lemma array_filter_pure fn (p : value -> value) l es h :
  elements h l = Some es ->
  callable h fn = true ->
  (forall v k, es !! k = Some (Some v) ->
     invoke H fn VUndefined [v; index_value k; VRef l] h = Ok (p v) h) ->
  array_filter H fn (VRef l) h
    = Ok (VRef (length h))
         (h ++ [Object (Array (Some <$> List.filter (fun v => truthy (p v)) (present es)))
                  ∅ true]).
Proof.
  intros He Hfn Hp.
  rewrite (array_filter_indexed fn (fun _ => p) l es h He Hfn Hp).
  unfold kept. by rewrite (kept_from_filter (fun v => truthy (p v))).
Qed.

(** The loop of [map], likewise. *)
Lemma iterate_map fn (p : nat -> value -> value) arr l es h :
  elements h l = Some es ->
  (forall v k, es !! k = Some (Some v) ->
     invoke H fn VUndefined [v; index_value k; arr] h = Ok (p k v) h) ->
  forall n k acc,
    (k + n <= length es)%nat ->
    iterate l k n
      (fun acc k x =>
         match x with
         | Some v =>
             y ← invoke H fn VUndefined [v; index_value k; arr];
             mret (acc ++ [Some y])
         | None => mret (acc ++ [None])
         end) acc h
      = Ok (acc ++ mapped_from p k (take n (drop k es))) h.
Proof.
  intros He Hp. induction n as [|n IH]; intros k acc Hk; cbn [iterate].
  - by rewrite take_0, app_nil_r.
  - destruct (lookup_lt_is_Some_2 es k ltac:(lia)) as [x Hx].
    rewrite (bind_Ok _ _ _ _ _ (element_elements _ _ _ _ _ He Hx)).
    rewrite (drop_S _ _ _ Hx). cbn [take mapped_from].
    destruct x as [v|].
    + rewrite bind_assoc, (bind_Ok _ _ _ _ _ (Hp v k Hx)).
      rewrite bind_unfold, mret_unfold, IH by lia. by rewrite <- app_assoc.
    + rewrite bind_unfold, mret_unfold. rewrite IH by lia. by rewrite <- app_assoc.
Qed.

Lemma array_map_indexed fn (p : nat -> value -> value) l es h :
  elements h l = Some es ->
  callable h fn = true ->
  (forall v k, es !! k = Some (Some v) ->
     invoke H fn VUndefined [v; index_value k; VRef l] h = Ok (p k v) h) ->
  array_map H fn (VRef l) h
    = Ok (VRef (length h)) (h ++ [Object (Array (mapped p es)) ∅ true]).
Proof.
  intros He Hfn Hp. unfold array_map.
  rewrite (bind_Ok _ _ _ _ _ (the_array_elements _ _ _ He)).
  rewrite (bind_Ok _ _ _ _ _ (array_length_elements _ _ _ He)).
  rewrite read_heap_bind, Hfn, bind_unfold.
  rewrite (iterate_map fn p (VRef l) l es h He Hp) by (simpl; lia).
  by rewrite drop_0, firstn_all.
Qed.

Lemma mapped_from_fmap (p : value -> value) k es :
  mapped_from (fun _ => p) k es = (fun x : option value => p <$> x) <$> es.
Proof.
  revert k. induction es as [|x es IH]; intros k; cbn [mapped_from]; [done|].
  by rewrite IH.
Qed.

Lemma array_map_pure fn (p : value -> value) l es h :
  elements h l = Some es ->
  callable h fn = true ->
  (forall v k, es !! k = Some (Some v) ->
     invoke H fn VUndefined [v; index_value k; VRef l] h = Ok (p v) h) ->
  array_map H fn (VRef l) h
    = Ok (VRef (length h)) (h ++ [Object (Array ((fun x : option value => p <$> x) <$> es)) ∅ true]).
Proof.
  intros He Hfn Hp.
  rewrite (array_map_indexed fn (fun _ => p) l es h He Hfn Hp).
  unfold mapped. by rewrite mapped_from_fmap.
Qed.

(** What [kept] and [mapped] hold, index by index. *)
Lemma kept_from_spec q k es v :
  v ∈ kept_from q k es <-> exists i, es !! i = Some (Some v) /\ q (k + i)%nat v = true.
Proof.
  revert k. induction es as [|x es IH]; intros k; cbn [kept_from].
  - split; [by intros ?%elem_of_nil|by intros (i & ? & _)].
  - assert (Hrest : v ∈ kept_from q (S k) es
                    <-> exists i, (x :: es) !! S i = Some (Some v) /\
                                  q (k + S i)%nat v = true).
    { rewrite IH. by setoid_rewrite Nat.add_succ_r. }
    destruct x as [w|].
    + destruct (q k w) eqn:Hq.
      * rewrite elem_of_cons, Hrest. split.
        -- intros [->|(i & ? & ?)]; [exists 0%nat; by rewrite Nat.add_0_r|by exists (S i)].
        -- intros ([|i] & Hi & Hqi); [left; by injection Hi|right; by exists i].
      * rewrite Hrest. split.
        -- intros (i & ? & ?). by exists (S i).
        -- intros ([|i] & Hi & Hqi); [|by exists i].
           injection Hi as ->. rewrite Nat.add_0_r in Hqi. congruence.
    + rewrite Hrest. split.
      * intros (i & ? & ?). by exists (S i).
      * intros ([|i] & Hi & Hqi); [done|by exists i].
Qed.

Lemma kept_from_sublist q k es : kept_from q k es `sublist_of` present es.
Proof.
  revert k. induction es as [|[v|] es IH]; intros k; cbn [kept_from]; [done| |].
  - unfold present. cbn. destruct (q k v); [by apply sublist_skip|by apply sublist_cons].
  - apply IH.
Qed.

Lemma mapped_from_lookup p k es i :
  mapped_from p k es !! i = (fun x : option value => p (k + i)%nat <$> x) <$> es !! i.
Proof.
  revert k i. induction es as [|x es IH]; intros k i; cbn [mapped_from]; [done|].
  destruct i as [|i]; [by rewrite Nat.add_0_r|].
  cbn. rewrite IH. by rewrite Nat.add_succ_r.
Qed.

Lemma mapped_from_length p k es : length (mapped_from p k es) = length es.
Proof.
  revert k. induction es as [|x es IH]; intros k; cbn [mapped_from]; [done|].
  cbn. by rewrite IH.
Qed.

(** A path that resolves to an array without side effect is what
    [getArray] returns. *)
Lemma getArray_array obj path l h :
  Utils.getPath H obj path h = Ok (VRef l) h ->
  Index.getArray H obj path h = Ok (VRef l) h.
Proof.
  intros Hv. unfold Index.getArray, Index.getPath. by rewrite (bind_Ok _ _ _ _ _ Hv).
Qed.

(** X12. [filter(path, fn)], for a path that resolves to an array and a
    callback that, called with an element, its index and the array,
    returns and leaves the heap alone: the read allocates one new array,
    which holds, in their order, the elements (holes left out) the
    callback answers with a truthy value at their index; the source array
    and the rest of the heap are as before. *)
Theorem filter_keeps_the_truthy path fn (p : nat -> value -> value)
    target key obj l es h :
  Utils.getPath H obj path h = Ok (VRef l) h ->
  elements h l = Some es ->
  callable h fn = true ->
  (forall v k, es !! k = Some (Some v) ->
     invoke H fn VUndefined [v; index_value k; VRef l] h = Ok (p k v) h) ->
  read_field H (Index.filter H path fn target key) obj h
    = Ok (VRef (length h))
         (h ++ [Object (Array (Some <$> kept (fun k v => truthy (p k v)) es)) ∅ true]) /\
  kept (fun k v => truthy (p k v)) es `sublist_of` present es /\
  (forall v, v ∈ kept (fun k v => truthy (p k v)) es
             <-> exists k, es !! k = Some (Some v) /\ truthy (p k v) = true).
Proof.
  intros Hv He Hfn Hp. split; [|split].
  - unfold Index.filter. rewrite read_field_getter. simpl.
    rewrite (bind_Ok _ _ _ _ _ (getArray_array _ _ _ _ Hv)).
    by apply array_filter_indexed.
  - apply kept_from_sublist.
  - intros v. unfold kept. by rewrite kept_from_spec.
Qed.

(** X13. [map(path, fn)], under the same conditions: the read allocates
    one new array of the length of the source, with the callback's answer
    for the element and its index where the source has an element, and a
    hole where it has a hole; the source array is as before. *)
Theorem map_applies_elementwise path fn (p : nat -> value -> value)
    target key obj l es h :
  Utils.getPath H obj path h = Ok (VRef l) h ->
  elements h l = Some es ->
  callable h fn = true ->
  (forall v k, es !! k = Some (Some v) ->
     invoke H fn VUndefined [v; index_value k; VRef l] h = Ok (p k v) h) ->
  read_field H (Index.map H path fn target key) obj h
    = Ok (VRef (length h)) (h ++ [Object (Array (mapped p es)) ∅ true]) /\
  length (mapped p es) = length es /\
  (forall k, mapped p es !! k = (fun x : option value => p k <$> x) <$> es !! k).
Proof.
  intros Hv He Hfn Hp. split; [|split].
  - unfold Index.map. rewrite read_field_getter. simpl.
    rewrite (bind_Ok _ _ _ _ _ (getArray_array _ _ _ _ Hv)).
    by apply array_map_indexed.
  - apply mapped_from_length.
  - intros k. unfold mapped. by rewrite mapped_from_lookup.
Qed.

(** X14. [mapBy(path, key)] and [filterBy(path, key, value)] on an array
    whose elements yield their member [key] without side effect: [mapBy]
    returns the members, element by element; [filterBy] with a value other
    than [undefined] returns the elements whose member is [===] that
    value, and without value those whose member is truthy. *)
Theorem mapBy_filterBy_by_member path k (m : value -> value) x target key obj l es h :
  Utils.getPath H obj path h = Ok (VRef l) h ->
  elements h l = Some es ->
  (forall v, Some v ∈ es -> js_get H v k h = Ok (m v) h) ->
  x <> VUndefined ->
  read_field H (Index.mapBy H path k target key) obj h
    = Ok (VRef (length h)) (h ++ [Object (Array ((fun x : option value => m <$> x) <$> es)) ∅ true]) /\
  read_field H (Index.filterBy H path k (Some x) target key) obj h
    = Ok (VRef (length h))
         (h ++ [Object (Array (Some <$> List.filter (fun v => strict_equal (m v) x)
                                          (present es))) ∅ true]) /\
  read_field H (Index.filterBy H path k None target key) obj h
    = Ok (VRef (length h))
         (h ++ [Object (Array (Some <$> List.filter (fun v => truthy (m v))
                                          (present es))) ∅ true]).
Proof.
  intros Hv He Hm Hx.
  assert (Hm' : forall v (i : nat), es !! i = Some (Some v) -> js_get H v k h = Ok (m v) h)
    by (intros v i Hi; apply Hm; by eapply list_elem_of_lookup_2).
  split; [|split].
  - unfold Index.mapBy, Index.map. rewrite read_field_getter. simpl.
    rewrite (bind_Ok _ _ _ _ _ (getArray_array _ _ _ _ Hv)).
    apply array_map_pure; [done..|]. intros v i Hi. simpl. by apply (Hm' v i).
  - unfold Index.filterBy. simpl.
    assert (strict_equal x VUndefined = false) as ->
      by (destruct x as [| | |[]| |]; done).
    simpl. unfold Index.filter. rewrite read_field_getter. simpl.
    rewrite (bind_Ok _ _ _ _ _ (getArray_array _ _ _ _ Hv)).
    rewrite (array_filter_pure _ (fun v => VBool (strict_equal (m v) x)) _ _ _ He);
      [done..|].
    intros v i Hi. simpl. change (arg 0 [v; index_value i; VRef l]) with v.
    by rewrite (bind_Ok _ _ _ _ _ (Hm' v i Hi)).
  - unfold Index.filterBy. simpl. unfold Index.filter.
    rewrite read_field_getter. simpl.
    rewrite (bind_Ok _ _ _ _ _ (getArray_array _ _ _ _ Hv)).
    rewrite (array_filter_pure _ (fun v => VBool (truthy (m v))) _ _ _ He);
      [done..|].
    intros v i Hi. simpl. change (arg 0 [v; index_value i; VRef l]) with v.
    by rewrite (bind_Ok _ _ _ _ _ (Hm' v i Hi)).
Qed.

End Lists.

(** ** [sum], [max] and [min] on numbers *)

Section Numbers.
Variable H : host.

Lemma round_double_safe z : safe z -> round_double z = Finite z.
Proof.
  intros [Hlo Hhi]. unfold round_double.
  by rewrite (proj2 (Z.ltb_lt (Z.abs z) (2 ^ 53)) ltac:(lia)).
Qed.

(** A loop whose body, on the elements of the array and on accumulators
    that satisfy an invariant, leaves the heap alone and keeps the
    invariant. *)
Lemma iterate_pure_inv {A} (Inv : A -> Prop) (g : A -> option value -> A) body l es h n :
  elements h l = Some es ->
  (forall acc k x, Inv acc -> es !! k = Some x ->
     body acc k x h = Ok (g acc x) h /\ Inv (g acc x)) ->
  forall k acc,
    Inv acc ->
    (k + n <= length es)%nat ->
    iterate (A := A) l k n body acc h = Ok (fold_left g (take n (drop k es)) acc) h.
Proof.
  intros He Hbody. induction n as [|n IH]; intros k acc Hacc Hk; simpl; [done|].
  destruct (lookup_lt_is_Some_2 es k ltac:(lia)) as [x Hx].
  rewrite (bind_Ok _ _ _ _ _ (element_elements _ _ _ _ _ He Hx)).
  destruct (Hbody acc k x Hacc Hx) as [Hb Hinv].
  rewrite (bind_Ok _ _ _ _ _ Hb).
  rewrite IH by (done || lia). by rewrite (drop_S _ _ _ Hx).
Qed.

Lemma array_fold_pure_inv {A} (Inv : A -> Prop) (g : A -> value -> A) body init l es h :
  elements h l = Some es ->
  Inv init ->
  (forall acc v, Inv acc -> Some v ∈ es -> body acc v h = Ok (g acc v) h /\ Inv (g acc v)) ->
  array_fold (A := A) body init (VRef l) h = Ok (fold_left g (present es) init) h.
Proof.
  intros He Hinit Hbody. unfold array_fold.
  rewrite (bind_Ok _ _ _ _ _ (the_array_elements _ _ _ He)).
  rewrite (bind_Ok _ _ _ _ _ (array_length_elements _ _ _ He)).
  rewrite (iterate_pure_inv Inv
             (fun acc x => match x with Some v => g acc v | None => acc end)
             _ _ _ _ _ He); [| |done|simpl; lia].
  - by rewrite drop_0, firstn_all, fold_left_present.
  - intros acc k [v|] Hacc Hk; [|done]. apply Hbody; [done|].
    by eapply list_elem_of_lookup_2.
Qed.

Lemma fold_add_integers zs a :
  (forall n, safe (a + fold_right Z.add 0 (take n zs))) ->
  fold_left (fun s v => match s, v with
                        | VNumber x, VNumber y => VNumber (num_add x y)
                        | _, _ => VUndefined
                        end) (integer <$> zs) (integer a)
    = integer (a + fold_right Z.add 0 zs).
Proof.
  revert a. induction zs as [|z zs IH]; intros a Hsafe; simpl.
  - by rewrite Z.add_0_r.
  - rewrite round_double_safe.
    + unfold integer in IH. rewrite IH.
      * unfold integer. do 2 f_equal. lia.
      * intros n. specialize (Hsafe (S n)). simpl in Hsafe.
        by rewrite <- Z.add_assoc.
    + specialize (Hsafe 1%nat). cbn [take fold_right] in Hsafe.
      by rewrite Z.add_0_r in Hsafe.
Qed.

(** X15. [sum] of an array whose elements are safe integers, and whose
    partial sums from the left are safe integers too, is their sum; holes
    are skipped, and the sum of no element is 0. *)
Theorem sum_adds_integers path target key obj l es zs h :
  Utils.getPath H obj path h = Ok (VRef l) h ->
  elements h l = Some es ->
  present es = integer <$> zs ->
  Forall safe zs ->
  (forall n, safe (fold_right Z.add 0 (take n zs))) ->
  read_field H (Index.sum H path target key) obj h
    = Ok (integer (fold_right Z.add 0 zs)) h.
Proof.
  intros Hv He Hzs _ Hsafe. unfold Index.sum. rewrite read_field_getter. simpl.
  rewrite (bind_Ok _ _ _ _ _ (getArray_array H _ _ _ _ Hv)).
  rewrite (array_fold_pure_inv (fun s => exists x, s = VNumber x)
             (fun s v => match s, v with
                         | VNumber x, VNumber y => VNumber (num_add x y)
                         | _, _ => VUndefined
                         end) _ _ _ _ _ He).
  - rewrite Hzs. f_equal. apply (fold_add_integers zs 0). intros n. apply Hsafe.
  - by eexists.
  - intros s v [x ->] Hin.
    assert (Hnum : v ∈ integer <$> zs) by (rewrite <- Hzs; apply list_elem_of_omap; by exists (Some v)).
    apply list_elem_of_fmap in Hnum as (z & -> & _).
    split; [done|by eexists].
Qed.

Lemma fold_max_integers zs a :
  fold_left num_max (Finite <$> zs) (Finite a) = Finite (fold_left Z.max zs a).
Proof.
  revert a. induction zs as [|z zs IH]; intros a; simpl; [done|].
  rewrite <- IH. f_equal. unfold num_max, num_lt.
  destruct (Z.ltb_spec a z); f_equal; lia.
Qed.

Lemma fold_min_integers zs a :
  fold_left num_min (Finite <$> zs) (Finite a) = Finite (fold_left Z.min zs a).
Proof.
  revert a. induction zs as [|z zs IH]; intros a; simpl; [done|].
  rewrite <- IH. f_equal. unfold num_min, num_lt.
  destruct (Z.ltb_spec z a); f_equal; lia.
Qed.

Lemma fold_max_bound zs a :
  a <= fold_left Z.max zs a /\
  (forall z, z ∈ zs -> z <= fold_left Z.max zs a) /\
  (fold_left Z.max zs a = a \/ fold_left Z.max zs a ∈ zs).
Proof.
  revert a. induction zs as [|z zs IH]; intros a; simpl.
  - split; [lia|]. split; [by intros z Hz; apply elem_of_nil in Hz|by left].
  - destruct (IH (Z.max a z)) as (Ha & Hall & Hin). split; [lia|]. split.
    + intros y [->|Hy]%elem_of_cons; [lia|by apply Hall].
    + destruct Hin as [Heq|Hin]; [|right; by apply elem_of_cons; right].
      rewrite Heq. destruct (Z.max_spec a z) as [[_ ->]|[_ ->]];
        [right; by apply elem_of_cons; left|by left].
Qed.

Lemma fold_min_bound zs a :
  fold_left Z.min zs a <= a /\
  (forall z, z ∈ zs -> fold_left Z.min zs a <= z) /\
  (fold_left Z.min zs a = a \/ fold_left Z.min zs a ∈ zs).
Proof.
  revert a. induction zs as [|z zs IH]; intros a; simpl.
  - split; [lia|]. split; [by intros z Hz; apply elem_of_nil in Hz|by left].
  - destruct (IH (Z.min a z)) as (Ha & Hall & Hin). split; [lia|]. split.
    + intros y [->|Hy]%elem_of_cons; [lia|by apply Hall].
    + destruct Hin as [Heq|Hin]; [|right; by apply elem_of_cons; right].
      rewrite Heq. destruct (Z.min_spec a z) as [[_ ->]|[_ ->]];
        [by left|right; by apply elem_of_cons; left].
Qed.

(** Within the argument limit [...arr] hands the elements over, a hole as
    [undefined]; beyond it the call throws. *)
Lemma spread_array l es h :
  elements h l = Some es ->
  (N.of_nat (length es) <= max_arguments H)%N ->
  spread H (VRef l) h = Ok (default VUndefined <$> es) h.
Proof.
  intros He Hlen. unfold spread, iterable. rewrite bind_unfold, He.
  rewrite length_fmap. by rewrite (proj2 (N.leb_le _ _) Hlen).
Qed.

Lemma spread_beyond_limit l es h :
  elements h l = Some es ->
  (max_arguments H < N.of_nat (length es))%N ->
  spread H (VRef l) h = Throw RangeError h.
Proof.
  intros He Hlen. unfold spread, iterable. rewrite bind_unfold, He.
  rewrite length_fmap. by rewrite (proj2 (N.leb_gt _ _) Hlen).
Qed.

Lemma default_Some (xs : list value) : default VUndefined <$> (Some <$> xs) = xs.
Proof. induction xs as [|x xs IH]; [done|]. simpl. by f_equal. Qed.

Lemma to_number_integers zs h :
  mapM (to_number H) (integer <$> zs) h = Ok (Finite <$> zs) h.
Proof.
  induction zs as [|z zs IH]; [done|].
  rewrite fmap_cons, mapM_cons. cbn [integer to_number].
  rewrite bind_unfold, mret_unfold. by rewrite (bind_Ok _ _ _ _ _ IH).
Qed.

(** X16. [max] and [min] of an array of integers without holes, with at
    least one element and no more elements than a call takes arguments,
    are elements of the array, [max] at least as large and [min] at most as
    large as every element. *)
Theorem max_min_of_integers path target key obj l zs h :
  Utils.getPath H obj path h = Ok (VRef l) h ->
  elements h l = Some (Some <$> (integer <$> zs)) ->
  zs <> [] ->
  (N.of_nat (length zs) <= max_arguments H)%N ->
  exists hi lo,
    read_field H (Index.max H path target key) obj h = Ok (integer hi) h /\
    read_field H (Index.min H path target key) obj h = Ok (integer lo) h /\
    hi ∈ zs /\ lo ∈ zs /\
    (forall z, z ∈ zs -> lo <= z <= hi).
Proof.
  intros Hv He Hne Hlen. destruct zs as [|z zs]; [done|].
  exists (fold_left Z.max zs z), (fold_left Z.min zs z).
  assert (Hspread : spread H (VRef l) h = Ok (integer <$> (z :: zs)) h).
  { rewrite (spread_array _ _ _ He) by (by rewrite !length_fmap).
    f_equal. apply default_Some. }
  destruct (fold_max_bound zs z) as (Hz1 & Hall1 & Hin1).
  destruct (fold_min_bound zs z) as (Hz2 & Hall2 & Hin2).
  split; [|split; [|split; [|split]]].
  - unfold Index.max. rewrite read_field_getter. cbn [arg nth].
    rewrite (bind_Ok _ _ _ _ _ (getArray_array H _ _ _ _ Hv)).
    rewrite (bind_Ok _ _ _ _ _ Hspread).
    unfold Math_max. rewrite bind_assoc.
    rewrite (bind_Ok _ _ _ _ _ (to_number_integers (z :: zs) h)).
    rewrite bind_unfold, mret_unfold, mret_unfold. cbn [fmap list_fmap fold_left].
    change (num_max NegInfinity (Finite z)) with (Finite z).
    by rewrite fold_max_integers.
  - unfold Index.min. rewrite read_field_getter. cbn [arg nth].
    rewrite (bind_Ok _ _ _ _ _ (getArray_array H _ _ _ _ Hv)).
    rewrite (bind_Ok _ _ _ _ _ Hspread).
    unfold Math_min. rewrite bind_assoc.
    rewrite (bind_Ok _ _ _ _ _ (to_number_integers (z :: zs) h)).
    rewrite bind_unfold, mret_unfold, mret_unfold. cbn [fmap list_fmap fold_left].
    change (num_min Infinity (Finite z)) with (Finite z).
    by rewrite fold_min_integers.
  - apply elem_of_cons. destruct Hin1 as [->|?]; [by left|by right].
  - apply elem_of_cons. destruct Hin2 as [->|?]; [by left|by right].
  - intros y [->|Hy]%elem_of_cons; [lia|]. split; [by apply Hall2|by apply Hall1].
Qed.

Lemma fold_max_NaN ns : fold_left num_max ns NaN = NaN.
Proof. induction ns as [|n ns IH]; simpl; [done|exact IH]. Qed.

Lemma fold_min_NaN ns : fold_left num_min ns NaN = NaN.
Proof. induction ns as [|n ns IH]; simpl; [done|exact IH]. Qed.

Lemma num_max_NaN_r m : num_max m NaN = NaN.
Proof. by destruct m. Qed.

Lemma num_min_NaN_r m : num_min m NaN = NaN.
Proof. by destruct m. Qed.

Lemma fold_max_has_NaN ns m : NaN ∈ ns -> fold_left num_max ns m = NaN.
Proof.
  revert m. induction ns as [|n ns IH]; intros m Hin; [by apply elem_of_nil in Hin|].
  apply elem_of_cons in Hin as [<-|Hin]; simpl.
  - rewrite num_max_NaN_r. apply fold_max_NaN.
  - by apply IH.
Qed.

Lemma fold_min_has_NaN ns m : NaN ∈ ns -> fold_left num_min ns m = NaN.
Proof.
  revert m. induction ns as [|n ns IH]; intros m Hin; [by apply elem_of_nil in Hin|].
  apply elem_of_cons in Hin as [<-|Hin]; simpl.
  - rewrite num_min_NaN_r. apply fold_min_NaN.
  - by apply IH.
Qed.

(** [undefined] converts to NaN, whatever is converted beside it. *)
Lemma to_number_undefined xs ns h h' :
  mapM (to_number H) xs h = Ok ns h' -> VUndefined ∈ xs -> NaN ∈ ns.
Proof.
  revert ns h. induction xs as [|x xs IH]; intros ns h Hns Hin;
    [by apply elem_of_nil in Hin|].
  rewrite mapM_cons, bind_unfold in Hns.
  destruct (to_number H x h) as [n h1|] eqn:Hx; [|done].
  rewrite bind_unfold in Hns.
  destruct (mapM (to_number H) xs h1) as [ns' h2|] eqn:Hxs; [|done].
  injection Hns as <- <-.
  apply elem_of_cons in Hin as [<-|Hin].
  - injection Hx as <- _. by left.
  - right. by eapply IH.
Qed.

(** X17. One hole or one [undefined] in an array that has no more
    elements than a call takes arguments makes [max] and [min] NaN,
    whatever the other elements are, provided each of them converts to a
    number: a conversion that throws makes the read throw. The heap is the
    one the conversions leave. *)
Theorem max_min_NaN_on_undefined path target key obj l es ns h h' :
  Utils.getPath H obj path h = Ok (VRef l) h ->
  elements h l = Some es ->
  (N.of_nat (length es) <= max_arguments H)%N ->
  mapM (to_number H) (default VUndefined <$> es) h = Ok ns h' ->
  None ∈ es \/ Some VUndefined ∈ es ->
  read_field H (Index.max H path target key) obj h = Ok (VNumber NaN) h' /\
  read_field H (Index.min H path target key) obj h = Ok (VNumber NaN) h'.
Proof.
  intros Hv He Hlen Hns Hin.
  assert (Hu : VUndefined ∈ default VUndefined <$> es).
  { apply list_elem_of_fmap.
    destruct Hin as [Hin|Hin]; [by exists None|by exists (Some VUndefined)]. }
  pose proof (to_number_undefined _ _ _ _ Hns Hu) as HNaN.
  split.
  - unfold Index.max. rewrite read_field_getter. cbn [arg nth].
    rewrite (bind_Ok _ _ _ _ _ (getArray_array H _ _ _ _ Hv)).
    rewrite (bind_Ok _ _ _ _ _ (spread_array _ _ _ He Hlen)).
    unfold Math_max. rewrite bind_assoc, (bind_Ok _ _ _ _ _ Hns).
    rewrite bind_unfold, mret_unfold, mret_unfold. by rewrite fold_max_has_NaN.
  - unfold Index.min. rewrite read_field_getter. cbn [arg nth].
    rewrite (bind_Ok _ _ _ _ _ (getArray_array H _ _ _ _ Hv)).
    rewrite (bind_Ok _ _ _ _ _ (spread_array _ _ _ He Hlen)).
    unfold Math_min. rewrite bind_assoc, (bind_Ok _ _ _ _ _ Hns).
    rewrite bind_unfold, mret_unfold, mret_unfold. by rewrite fold_min_has_NaN.
Qed.

End Numbers.

(** ** The set macros *)

Section Sets.
Variable H : host.

Lemma set_has_elem_of set v : Index.set_has set v = true <-> v ∈ set.
Proof.
  unfold Index.set_has. rewrite existsb_exists. split.
  - intros (x & Hx & Heq). apply bool_decide_eq_true in Heq as <-.
    by apply list_elem_of_In.
  - intros Hv. exists v. split; [by apply list_elem_of_In|by apply bool_decide_eq_true].
Qed.

Lemma set_has_not_elem_of set v : Index.set_has set v = false <-> v ∉ set.
Proof.
  rewrite <- set_has_elem_of. by destruct (Index.set_has set v).
Qed.

(** Adding the values [xs] to a set [acc]: the set keeps its elements in
    front, takes the new values in their order, once each. *)
Lemma fold_set_add xs acc :
  NoDup acc ->
  exists ys,
    fold_left Index.set_add xs acc = acc ++ ys /\
    NoDup (acc ++ ys) /\
    ys `sublist_of` xs /\
    (forall v, v ∈ acc ++ ys <-> v ∈ acc \/ v ∈ xs).
Proof.
  revert acc. induction xs as [|x xs IH]; intros acc Hacc; simpl.
  - exists []. rewrite app_nil_r. split; [done|]. split; [done|]. split; [done|].
    intros v. rewrite elem_of_nil. tauto.
  - unfold Index.set_add at 2. destruct (Index.set_has acc x) eqn:Hx.
    + apply set_has_elem_of in Hx.
      destruct (IH acc Hacc) as (ys & Heq & Hnd & Hsub & Hin).
      exists ys. split; [done|]. split; [done|]. split; [by apply sublist_cons|].
      intros v. rewrite Hin, elem_of_cons. split; [tauto|].
      intros [?|[->|?]]; tauto.
    + apply set_has_not_elem_of in Hx.
      assert (Hacc' : NoDup (acc ++ [x])).
      { apply NoDup_app. split; [done|]. split; [|apply NoDup_singleton].
        intros y Hy ->%list_elem_of_singleton. done. }
      destruct (IH (acc ++ [x]) Hacc') as (ys & Heq & Hnd & Hsub & Hin).
      exists (x :: ys). rewrite Heq, <- app_assoc. simpl.
      split; [done|]. split; [by rewrite <- app_assoc in Hnd|].
      split; [by apply sublist_skip|].
      intros v. rewrite <- app_assoc in Hin. simpl in Hin. rewrite Hin.
      rewrite elem_of_app, list_elem_of_singleton, elem_of_cons. tauto.
Qed.

Lemma elem_of_present v es : v ∈ present es <-> Some v ∈ es.
Proof.
  unfold present. rewrite list_elem_of_omap. split.
  - by intros ([x|] & Hx & [= <-]).
  - intros Hv. by exists (Some v).
Qed.



Lemma getArrays_arrays obj paths ops h :
  Forall2 (array_at H obj h) paths ops ->
  Index.getArrays H obj paths h = Ok (VRef <$> ops.*1) h.
Proof.
  unfold Index.getArrays. induction 1 as [|p op paths ops [Hp _] _ IH]; [done|].
  rewrite mapM_cons, (bind_Ok _ _ _ _ _ (getArray_array H _ _ _ _ Hp)).
  by rewrite (bind_Ok _ _ _ _ _ IH).
Qed.

Lemma for_of_union ops acc h :
  Forall (fun op : loc * list (option value) => elements h op.1 = Some op.2) ops ->
  Index.for_of (fun union arr =>
                  array_fold (fun set v => mret (Index.set_add set v)) union arr)
               (VRef <$> ops.*1) acc h
    = Ok (fold_left Index.set_add (concat (present <$> ops.*2)) acc) h.
Proof.
  intros Hops. revert acc. induction Hops as [|[l es] ops He _ IH]; intros acc; [done|].
  simpl in *. rewrite (bind_Ok _ _ _ _ _ (array_fold_pure Index.set_add _ _ _ _ _ He
                                            ltac:(done))).
  by rewrite IH, fold_left_app.
Qed.

(** X18. [union] of paths that resolve to arrays returns a new array that
    holds every value found in one of the arrays, once: no value twice,
    and a value is in the result exactly when it is an element of one of
    the arrays. The source arrays are as before. *)
Theorem union_holds_each_value_once paths ops target key obj h :
  Forall2 (array_at H obj h) paths ops ->
  exists us,
    read_field H (Index.union H paths target key) obj h
      = Ok (VRef (length h)) (h ++ [Object (Array (Some <$> us)) ∅ true]) /\
    NoDup us /\
    (forall v, v ∈ us <-> exists op, op ∈ ops /\ Some v ∈ op.2).
Proof.
  intros Hops.
  destruct (fold_set_add (concat (present <$> ops.*2)) [] (NoDup_nil_2))
    as (us & Heq & Hnd & _ & Hin).
  exists us. split; [|split; [done|]].
  - unfold Index.union. rewrite read_field_getter. simpl.
    rewrite (bind_Ok _ _ _ _ _ (getArrays_arrays _ _ _ _ Hops)).
    rewrite (bind_Ok _ _ _ _ _ (for_of_union ops [] h ltac:(
      eapply Forall2_Forall_r; [exact Hops|];
      apply Forall_true; by intros op p [_ ?]))).
    unfold Index.getValues. by rewrite Heq.
  - intros v. rewrite (Hin v), elem_of_nil, list_elem_of_In, in_concat. split.
    + intros [[]|(xs & Hxs & Hv)].
      apply list_elem_of_In in Hxs, Hv.
      apply list_elem_of_fmap in Hxs as (es & -> & Hes).
      apply list_elem_of_fmap in Hes as (op & -> & Hop).
      exists op. split; [done|]. by apply elem_of_present.
    + intros (op & Hop & Hv). right. exists (present op.2).
      rewrite <- !list_elem_of_In.
      split; [|by apply elem_of_present].
      apply list_elem_of_fmap. exists op.2. split; [done|].
      apply list_elem_of_fmap. by exists op.
Qed.

(** X19. [unique] of a path that resolves to an array returns a new array
    that holds each value of the source once: no value twice, the same
    values as the source, and the result can be read off the source by
    leaving elements out. *)
Theorem unique_holds_each_value_once_in_order path target key obj l es h :
  Utils.getPath H obj path h = Ok (VRef l) h ->
  elements h l = Some es ->
  exists us,
    read_field H (Index.unique H path target key) obj h
      = Ok (VRef (length h)) (h ++ [Object (Array (Some <$> us)) ∅ true]) /\
    NoDup us /\
    us `sublist_of` present es /\
    (forall v, v ∈ us <-> Some v ∈ es).
Proof.
  intros Hv He.
  destruct (fold_set_add (present es) [] (NoDup_nil_2)) as (us & Heq & Hnd & Hsub & Hin).
  exists us. split; [|split; [done|split; [done|]]].
  - unfold Index.unique, Index.union. rewrite read_field_getter. simpl.
    rewrite (bind_Ok _ _ _ _ _ (getArrays_arrays obj [path] [(l, es)] h
                                  ltac:(by repeat constructor))).
    rewrite (bind_Ok _ _ _ _ _ (for_of_union [(l, es)] [] h
                                  ltac:(by repeat constructor))).
    unfold Index.getValues. simpl. rewrite app_nil_r. by rewrite Heq.
  - intros v. rewrite (Hin v), elem_of_nil, elem_of_present. tauto.
Qed.

End Sets.






Section SetFilters.
Variable H : host.
Variable keep : list value -> value -> bool.


End SetFilters.

Section DiffIntersect.
Variable H : host.



End DiffIntersect.

Section UniqueBy.
Variable H : host.

Lemma fold_uniqueBy (m : value -> value) xs vals :
  NoDup (m <$> vals) ->
  exists ys,
    fold_left (fun (state : list value * list value) v =>
                 let '(union, values) := state in
                 if negb (Index.set_has union (m v))
                 then (Index.set_add union (m v), values ++ [v])
                 else (union, values))
              xs (m <$> vals, vals)
      = (m <$> (vals ++ ys), vals ++ ys) /\
    NoDup (m <$> (vals ++ ys)) /\
    ys `sublist_of` xs /\
    (forall x, x ∈ xs -> m x ∈ m <$> (vals ++ ys)).
Proof.
  revert vals. induction xs as [|x xs IH]; intros vals Hnd.
  - exists []. rewrite app_nil_r. split; [done|]. split; [done|]. split; [done|].
    by intros x ?%elem_of_nil.
  - cbn [fold_left]. unfold Index.set_add.
    destruct (Index.set_has (m <$> vals) (m x)) eqn:Hx; cbn [negb].
    + apply set_has_elem_of in Hx.
      destruct (IH vals Hnd) as (ys & Heq & Hnd' & Hsub & Hin).
      exists ys. split; [done|]. split; [done|]. split; [by apply sublist_cons|].
      intros y [->|Hy]%elem_of_cons; [|by apply Hin].
      rewrite fmap_app. apply elem_of_app. by left.
    + apply set_has_not_elem_of in Hx.
      assert (Hnd1 : NoDup (m <$> (vals ++ [x]))).
      { rewrite fmap_app. apply NoDup_app. split; [done|]. split; [|apply NoDup_singleton].
        intros y Hy ->%list_elem_of_singleton. done. }
      destruct (IH (vals ++ [x]) Hnd1) as (ys & Heq & Hnd' & Hsub & Hin).
      exists (x :: ys). rewrite (cons_middle x vals ys), app_assoc.
      rewrite fmap_app in Heq at 1. split; [exact Heq|]. split; [done|].
      split; [by apply sublist_skip|].
      intros y [->|Hy]%elem_of_cons; [|by apply Hin].
      rewrite !fmap_app. apply elem_of_app. left. apply elem_of_app. right.
      by apply list_elem_of_singleton.
Qed.

(** X22. [uniqueBy] of a path that resolves to an array whose elements
    have the member [key] as plain data returns a new array of elements of
    the source, in their order, of which no two have the same value of
    the member, and in which every value of the member found in the
    source is found. *)
Theorem uniqueBy_one_element_per_key path k (m : value -> value) target key obj l es h :
  Utils.getPath H obj path h = Ok (VRef l) h ->
  elements h l = Some es ->
  (forall v, Some v ∈ es -> js_get H v k h = Ok (m v) h) ->
  exists us,
    read_field H (Index.uniqueBy H path k target key) obj h
      = Ok (VRef (length h)) (h ++ [Object (Array (Some <$> us)) ∅ true]) /\
    us `sublist_of` present es /\
    NoDup (m <$> us) /\
    (forall v, Some v ∈ es -> m v ∈ m <$> us).
Proof.
  intros Hv He Hm.
  destruct (fold_uniqueBy m (present es) [] (NoDup_nil_2)) as (us & Heq & Hnd & Hsub & Hin).
  exists us. split; [|split; [done|split; [done|]]].
  - unfold Index.uniqueBy. rewrite read_field_getter. cbn [arg nth].
    rewrite (bind_Ok _ _ _ _ _ (getArray_array H _ _ _ _ Hv)).
    erewrite bind_Ok;
      [|apply (array_fold_pure_on
                 (fun (state : list value * list value) v =>
                    let '(union, values) := state in
                    if negb (Index.set_has union (m v))
                    then (Index.set_add union (m v), values ++ [v])
                    else (union, values)) _ _ _ _ _ He)].
    + simpl in Heq. rewrite Heq. done.
    + intros [union values] v Hin'. rewrite (bind_Ok _ _ _ _ _ (Hm v Hin')).
      by destruct (Index.set_has union (m v)).
  - intros v Hin'. apply (Hin v). by apply elem_of_present.
Qed.

End UniqueBy.

(** ** The sorting macros *)

Lemma Sorted_weaken {A} (R R' : A -> A -> Prop) l :
  (forall a b, R a b -> R' a b) -> Sorted R l -> Sorted R' l.
Proof.
  intros HR. induction 1 as [|a l _ IH Hhd]; constructor; [done|].
  destruct Hhd; constructor. by apply HR.
Qed.

Section SortedCopy.
Variable H : host.

Section Comparator.
Variable cmp : func.
Variable c : value -> value -> number.
Variable P : value -> Prop.
Variable h : heap.
Hypothesis cmp_number :
  forall a b, P a -> P b -> invoke H cmp VUndefined [a; b] h = Ok (VNumber (c a b)) h.
Hypothesis cmp_asym :
  forall a b, P a -> P b ->
    num_lt (Finite 0) (c a b) = true -> num_lt (Finite 0) (c b a) = false.

Lemma insert_sorted_sorted x sorted :
  P x -> Forall P sorted ->
  Sorted (fun a b => num_lt (Finite 0) (c a b) = false) sorted ->
  exists s,
    insert_sorted H cmp x sorted h = Ok s h /\
    s ≡ₚ x :: sorted /\
    Sorted (fun a b => num_lt (Finite 0) (c a b) = false) s /\
    (forall y, HdRel (fun a b => num_lt (Finite 0) (c a b) = false) y sorted ->
               num_lt (Finite 0) (c y x) = false ->
               HdRel (fun a b => num_lt (Finite 0) (c a b) = false) y s).
Proof.
  intros Hx. induction sorted as [|y ys IH]; intros HP Hsorted; cbn [insert_sorted].
  - exists [x]. split; [done|]. split; [done|]. split; [by repeat constructor|].
    intros y _ Hyx. by constructor.
  - apply Forall_cons in HP as [Hy Hys].
    rewrite (bind_Ok _ _ _ _ _ (cmp_number y x Hy Hx)).
    change (to_number H (VNumber (c y x))) with (mret (c y x) : M number).
    rewrite bind_unfold, mret_unfold.
    destruct (num_lt (Finite 0) (c y x)) eqn:Hyx.
    + exists (x :: y :: ys). split; [done|]. split; [done|]. split.
      * constructor; [done|]. constructor. by apply cmp_asym.
      * intros z _ Hzx. by constructor.
    + apply Sorted_inv in Hsorted as [Hsys Hhd].
      destruct (IH Hys Hsys) as (s & Hs & Hperm & Hss & Hrel).
      rewrite (bind_Ok _ _ _ _ _ Hs). exists (y :: s).
      split; [done|]. split; [rewrite Hperm; apply perm_swap|]. split.
      * constructor; [done|]. by apply Hrel.
      * intros z Hz _. apply HdRel_inv in Hz. by constructor.
Qed.

Lemma sort_values_sorted xs sorted :
  Forall P xs -> Forall P sorted ->
  Sorted (fun a b => num_lt (Finite 0) (c a b) = false) sorted ->
  exists s,
    sort_values H cmp xs sorted h = Ok s h /\
    s ≡ₚ xs ++ sorted /\
    Sorted (fun a b => num_lt (Finite 0) (c a b) = false) s.
Proof.
  revert sorted. induction xs as [|x xs IH]; intros sorted Hxs HP Hsorted;
    cbn [sort_values].
  - by exists sorted.
  - apply Forall_cons in Hxs as [Hx Hxs].
    destruct (insert_sorted_sorted x sorted Hx HP Hsorted) as (s1 & Hs1 & Hp1 & Hss1 & _).
    rewrite (bind_Ok _ _ _ _ _ Hs1).
    destruct (IH s1 Hxs) as (s & Hs & Hp & Hss); [|done|].
    { rewrite Hp1. by constructor. }
    exists s. split; [done|]. split; [|done].
    rewrite Hp, Hp1. by rewrite <- Permutation_middle.
Qed.

End Comparator.

(** [slice().sort(fn)] with a comparator that, on the elements of the
    source other than [undefined] and in the heap that holds the copy,
    answers with the number [c a b] and leaves the heap alone. *)
Lemma sort_copy_sorted path fn (c : value -> value -> number) target key obj src es h h1 :
  Index.getArray H obj path h = Ok (VRef src) h1 ->
  elements h1 src = Some es ->
  callable h1 fn = true ->
  (forall a b, Some a ∈ es -> a <> VUndefined -> Some b ∈ es -> b <> VUndefined ->
     invoke H fn VUndefined [a; b] (h1 ++ [Object (Array es) ∅ true])
       = Ok (VNumber (c a b)) (h1 ++ [Object (Array es) ∅ true])) ->
  (forall a b, Some a ∈ es -> a <> VUndefined -> Some b ∈ es -> b <> VUndefined ->
     num_lt (Finite 0) (c a b) = true -> num_lt (Finite 0) (c b a) = false) ->
  exists sorted,
    read_field H (Index.sort H path fn target key) obj h
      = Ok (VRef (length h1))
           (h1 ++ [Object (Array ((Some <$> sorted)
                                    ++ List.filter is_undefined es
                                    ++ List.filter is_hole es)) ∅ true]) /\
    sorted ≡ₚ omap is_defined es /\
    Sorted (fun a b => num_lt (Finite 0) (c a b) = false) sorted.
Proof.
  intros Harr He Hfn Hcmp Hasym.
  destruct (sort_values_sorted fn c (fun v => Some v ∈ es /\ v <> VUndefined)
              (h1 ++ [Object (Array es) ∅ true])
              ltac:(intros a b [? ?] [? ?]; by apply Hcmp)
              ltac:(intros a b [? ?] [? ?]; by apply Hasym)
              (omap is_defined es) []) as (s & Hs & Hperm & Hsorted).
  { apply Forall_forall. intros v Hv. by apply elem_of_defined. }
  { done. }
  { constructor. }
  exists s. rewrite app_nil_r in Hperm. split; [|by split].
  unfold Index.sort. rewrite read_field_getter. simpl.
  rewrite (bind_Ok _ _ _ _ _ Harr).
  rewrite (bind_Ok _ _ _ _ _ (array_slice_copy _ _ _ He)).
  unfold array_sort.
  rewrite (bind_Ok _ _ _ _ _ (the_array_elements _ _ _ (elements_alloc _ _ _ _))).
  rewrite read_heap_bind, (callable_alloc _ _ _ Hfn), elements_alloc. simpl.
  rewrite (bind_Ok _ _ _ _ _ Hs). rewrite bind_unfold.
  unfold set_elements. rewrite lookup_alloc.
  rewrite insert_app_r_alt by done. by rewrite Nat.sub_diag.
Qed.

Lemma consistent_asym c (P : value -> Prop) a b :
  consistent c P -> P a -> P b ->
  num_lt (Finite 0) (c a b) = true -> num_lt (Finite 0) (c b a) = false.
Proof.
  intros Hc Ha Hb Hab. destruct (num_lt (Finite 0) (c b a)) eqn:Hba; [|done].
  pose proof (consistent_after c P Hc a b a Ha Hb Ha Hab Hba) as Haa.
  destruct (consistent_refl c P Hc a Ha) as [_ Hlevel].
  unfold after in Haa. congruence.
Qed.

(** X23. [sort] of a path that resolves to an array, with a comparator
    that answers with a number on the elements of the array, without side
    effect, and is consistent on them as ECMAScript requires of a
    comparator, returns a new array: the elements other than [undefined]
    in an order in which the comparator puts no element after its
    successor, then the [undefined] elements, then the holes. The source
    array holds what it held. *)
Theorem sort_returns_sorted_copy path fn (c : value -> value -> number)
    target key obj l es h :
  Utils.getPath H obj path h = Ok (VRef l) h ->
  elements h l = Some es ->
  callable h fn = true ->
  (forall a b, Some a ∈ es -> a <> VUndefined -> Some b ∈ es -> b <> VUndefined ->
     invoke H fn VUndefined [a; b] (h ++ [Object (Array es) ∅ true])
       = Ok (VNumber (c a b)) (h ++ [Object (Array es) ∅ true])) ->
  consistent c (fun v => Some v ∈ es /\ v <> VUndefined) ->
  exists sorted h',
    read_field H (Index.sort H path fn target key) obj h = Ok (VRef (length h)) h' /\
    elements h' (length h)
      = Some ((Some <$> sorted) ++ List.filter is_undefined es ++ List.filter is_hole es) /\
    elements h' l = Some es /\
    sorted ≡ₚ omap is_defined es /\
    Sorted (fun a b => num_lt (Finite 0) (c a b) = false) sorted.
Proof.
  intros Hv He Hfn Hcmp Hcons.
  destruct (sort_copy_sorted path fn c target key obj l es h h
              (getArray_array H _ _ _ _ Hv) He Hfn Hcmp)
    as (sorted & Hrun & Hperm & Hsorted).
  { intros a b Ha Hna Hb Hnb.
    by apply (consistent_asym c _ a b Hcons). }
  eexists sorted, _. split; [exact Hrun|].
  split; [apply elements_alloc|]. split; [by apply elements_app|]. by split.
Qed.

(** X24. [sortBy] of a path that resolves to an array whose elements
    other than [undefined] have an integer as the member [key] returns a
    new array: those elements ordered by that member, ascending when
    [asc] is left out or [true] and descending when it is [false], then
    the [undefined] elements, then the holes. The source array holds what
    it held. *)
Theorem sortBy_orders_by_member path k asc (m : value -> Z) target key obj l es h :
  Utils.getPath H obj path h = Ok (VRef l) h ->
  elements h l = Some es ->
  (forall v, Some v ∈ es -> v <> VUndefined ->
     js_get H v k (h ++ [Object (Array es) ∅ true])
       = Ok (VNumber (Finite (m v))) (h ++ [Object (Array es) ∅ true])) ->
  exists sorted h',
    read_field H (Index.sortBy H path k asc target key) obj h = Ok (VRef (length h)) h' /\
    elements h' (length h)
      = Some ((Some <$> sorted) ++ List.filter is_undefined es ++ List.filter is_hole es) /\
    elements h' l = Some es /\
    sorted ≡ₚ omap is_defined es /\
    Sorted (fun a b => if default true asc then (m a <= m b)%Z else (m b <= m a)%Z) sorted.
Proof.
  intros Hv He Hm. unfold Index.sortBy.
  set (up := default true asc).
  set (c := fun a b : value =>
              if (m a <? m b)%Z then Finite (if up then -1 else 1)
              else if (m b <? m a)%Z then Finite (if up then 1 else -1)
              else Finite 0).
  lazymatch goal with
  | |- context [Index.sort H path ?fn target key] =>
      pose proof (sort_copy_sorted path fn c target key obj l es h h
                    (getArray_array H _ _ _ _ Hv) He eq_refl) as Hsort
  end.
  destruct Hsort as (sorted & Hrun & Hperm & Hsorted).
  { intros a b Ha Hna Hb Hnb. cbn [invoke].
    change (arg 0 [a; b]) with a. change (arg 1 [a; b]) with b.
    rewrite (bind_Ok _ _ _ _ _ (Hm a Ha Hna)), (bind_Ok _ _ _ _ _ (Hm b Hb Hnb)).
    rewrite (bind_Ok _ _ _ _ _ (js_lt_numbers H _ _ _)).
    change (default false (num_less (Finite (m a)) (Finite (m b)))) with (m a <? m b)%Z.
    unfold c. destruct (m a <? m b)%Z; [done|].
    rewrite (bind_Ok _ _ _ _ _ (Hm a Ha Hna)), (bind_Ok _ _ _ _ _ (Hm b Hb Hnb)).
    rewrite (bind_Ok _ _ _ _ _ (js_gt_numbers H _ _ _)).
    change (default false (num_less (Finite (m b)) (Finite (m a)))) with (m b <? m a)%Z.
    by destruct (m b <? m a)%Z. }
  { intros a b _ _ _ _. unfold c.
    destruct (Z.ltb_spec (m a) (m b)), (Z.ltb_spec (m b) (m a)), up;
      simpl; try done; lia. }
  eexists sorted, _. split; [exact Hrun|].
  split; [apply elements_alloc|]. split; [by apply elements_app|]. split; [done|].
  eapply Sorted_weaken; [|exact Hsorted].
  intros a b. unfold c.
  destruct (Z.ltb_spec (m a) (m b)), (Z.ltb_spec (m b) (m a)), up;
    simpl; try done; lia.
Qed.

End SortedCopy.

(** ** Truthiness *)

Section Truthiness.
Variable H : host.

Lemma nullish_test v :
  strict_equal v VNull || strict_equal v VUndefined = is_nullish v.
Proof.
  destruct v as [| | |[]| |]; unfold strict_equal; cbn [is_nullish];
    repeat case_bool_decide; by simplify_eq.
Qed.

(** X25. On one resolved value, [not] reads the negation of [bool],
    [nullish] reads [true] exactly for [null] and [undefined], and
    whenever [nullish] reads [true] so does [not]; each of the three reads
    leaves the heap as resolution left it. *)
Theorem not_bool_nullish path target key obj v h h' :
  Utils.getPath H obj path h = Ok v h' ->
  exists b n,
    read_field H (Index.bool H path target key) obj h = Ok (VBool b) h' /\
    read_field H (Index.not H path target key) obj h = Ok (VBool (negb b)) h' /\
    read_field H (Index.nullish H path target key) obj h = Ok (VBool n) h' /\
    b = truthy v /\
    n = is_nullish v /\
    (n = true -> b = false).
Proof.
  intros Hv. exists (truthy v), (is_nullish v).
  repeat (split; [by unfold Index.bool, Index.not, Index.nullish;
                     rewrite read_field_getter; simpl;
                     unfold Index.getPath; rewrite (bind_Ok _ _ _ _ _ Hv);
                     rewrite ?nullish_test|]).
  split; [done|]. split; [done|]. by destruct v.
Qed.

End Truthiness.

(** * The array macros on a null or undefined operand *)

Section NullishOperand.
Variable H : host.



End NullishOperand.

(** * What [filterBy] selects *)

Section FilterBy.
Variable H : host.

(** C10. In both revisions [filterBy(path, key, undefined)] is
    [filterBy(path, key)]. Whatever the third argument, [filterBy] is
    [filter] with a callback that looks the member [key] of the element up
    and answers whether it is [===] the value, when a value other than
    [undefined] was given, and whether it is truthy otherwise; neither
    answer is [true] for a member that is [undefined]. On an array whose
    elements yield the member without side effect, a read returns a new
    array of exactly the elements so selected, in their order: none of
    them has [undefined] for member. *)
Theorem filterBy_never_selects_undefined path key (m : value -> value) value
    target field obj l es h :
  elements h l = Some es ->
  (forall v, Some v ∈ es -> js_get H v key h = Ok (m v) h) ->
  let given := default VUndefined value in
  let selects x :=
    if strict_equal given VUndefined then truthy x else strict_equal x given in
  let selected := List.filter (fun v => selects (m v)) (present es) in
  Index.filterBy H path key (Some VUndefined) = Index.filterBy H path key None /\
  Legacy.filterBy H path key (Some VUndefined) = Legacy.filterBy H path key None /\
  (exists callback,
     Index.filterBy H path key value = Index.filter H path callback /\
     Legacy.filterBy H path key value = Legacy.filter H path callback /\
     (forall h0, callable h0 callback = true) /\
     forall v k a h0,
       invoke H callback VUndefined [v; k; a] h0
         = (x ← js_get H v key; mret (VBool (selects x))) h0) /\
  selects VUndefined = false /\
  (Utils.getPath H obj path h = Ok (VRef l) h ->
     read_field H (Index.filterBy H path key value target field) obj h
       = Ok (VRef (length h)) (h ++ [Object (Array (Some <$> selected)) ∅ true])) /\
  (Legacy.getPath H obj path h = Ok (VRef l) h ->
     read_field H (Legacy.filterBy H path key value target field) obj h
       = Ok (VRef (length h)) (h ++ [Object (Array (Some <$> selected)) ∅ true])) /\
  Forall (fun v => m v <> VUndefined) selected /\
  (given = VUndefined ->
     selected = List.filter (fun v => truthy (m v)) (present es)).
Proof.
  intros He Hm given selects selected.
  assert (Hundef : selects VUndefined = false).
  { unfold selects. destruct (strict_equal given VUndefined) eqn:Hg; [done|].
    destruct given as [| | |[]| |]; done. }
  assert (Hm' : forall v (i : nat), es !! i = Some (Some v) -> js_get H v key h = Ok (m v) h)
    by (intros v i Hi; apply Hm; by eapply list_elem_of_lookup_2).
  assert (Hcb : exists callback,
     Index.filterBy H path key value = Index.filter H path callback /\
     Legacy.filterBy H path key value = Legacy.filter H path callback /\
     (forall h0, callable h0 callback = true) /\
     forall v k a h0,
       invoke H callback VUndefined [v; k; a] h0
         = (x ← js_get H v key; mret (VBool (selects x))) h0).
  { unfold Index.filterBy, Legacy.filterBy, selects. fold given.
    destruct (strict_equal given VUndefined); cbn [negb]; eexists; by repeat split. }
  split; [done|]. split; [done|]. split; [exact Hcb|]. split; [exact Hundef|].
  destruct Hcb as (callback & -> & -> & Hfn & Hcall).
  assert (Hfilter : array_filter H callback (VRef l) h
            = Ok (VRef (length h)) (h ++ [Object (Array (Some <$> selected)) ∅ true])).
  { rewrite (array_filter_pure H callback (fun v => VBool (selects (m v))) _ _ _ He (Hfn h));
      [done|].
    intros v i Hi. by rewrite Hcall, (bind_Ok _ _ _ _ _ (Hm' v i Hi)). }
  split; [|split; [|split]].
  - intros Hv. unfold Index.filter. rewrite read_field_getter. cbn [arg nth].
    by rewrite (bind_Ok _ _ _ _ _ (getArray_array H _ _ _ _ Hv)).
  - intros Hv. unfold Legacy.filter. rewrite legacy_read_field_getter. cbn [arg nth].
    by rewrite (bind_Ok _ _ _ _ _ Hv).
  - apply Forall_forall. intros v Hin%list_elem_of_In.
    apply filter_In in Hin as [_ Hsel]. intros Hu. rewrite Hu in Hsel. congruence.
  - intros Hg. unfold selected, selects. by rewrite Hg.
Qed.

End FilterBy.

(** * The further properties on the objects of the tests *)

Ltac each_element Hv :=
  repeat (apply elem_of_cons in Hv as [Hv|Hv]; [simplify_eq|]);
  try (by apply elem_of_nil in Hv).

Lemma getPath_only_reads_plain_data_witness :
  (exists v, Utils.getPath test_host (VRef 0) "a.b" nested = Ok v nested) \/
  Utils.getPath test_host (VRef 0) "a.b" nested = Throw TypeError nested.
Proof.
  apply getPath_only_reads_plain_data. apply data_only_check. vm_compute; reflexivity.
Defined.

Lemma revisions_agree_on_plain_data_witness :
  Legacy.getPath test_host (VRef 0) "a.b" nested
    = Utils.getPath test_host (VRef 0) "a.b" nested /\
  Legacy.setPath test_host (VRef 0) "a.b" (num 2) nested
    = Utils.setPath test_host (VRef 0) "a.b" (num 2) nested.
Proof.
  apply revisions_agree_on_plain_data. apply data_only_check. vm_compute; reflexivity.
Defined.

Lemma getPaths_one_value_per_path_witness :
  exists vs h1,
    mapM (Utils.getPath test_host (VRef 0)) ["qux.foo"; "qux.baz"] with_flags = Ok vs h1 /\
    VRef 2 = VRef (length h1) /\
    with_flags ++ [Object (Array [Some (VBool false); Some (VBool true)]) ∅ true]
      = h1 ++ [Object (Array (Some <$> vs)) ∅ true] /\
    length vs = 2%nat /\
    (forall i p, ["qux.foo"; "qux.baz"] !! i = Some p ->
       exists v ha hb,
         vs !! i = Some v /\
         mapM (Utils.getPath test_host (VRef 0)) (take i ["qux.foo"; "qux.baz"]) with_flags
           = Ok (take i vs) ha /\
         Utils.getPath test_host (VRef 0) p ha = Ok v hb).
Proof.
  apply (getPaths_one_value_per_path test_host (VRef 0) ["qux.foo"; "qux.baz"] (VRef 2)
           with_flags
           (with_flags ++ [Object (Array [Some (VBool false); Some (VBool true)]) ∅ true])).
  vm_compute; reflexivity.
Defined.

Lemma setPath_changes_one_member_witness :
  exists h2 o',
    Utils.setPath test_host (VRef 0) "a.b" (num 2) nested = Ok tt h2 /\
    length h2 = 2%nat /\
    (forall l, l <> 1%nat -> h2 !! l = nested !! l) /\
    h2 !! 1%nat = Some o' /\
    kind_of o' = Plain /\
    extensible o' = true /\
    props o' !! final_key "a.b" = Some (Data (num 2) true) /\
    (forall k, k <> final_key "a.b" ->
               props o' !! k = props (plain {[ "b" := data (num 1) ]}) !! k).
Proof.
  apply (setPath_changes_one_member test_host (VRef 0) "a.b" (num 2) 1%nat
           (plain {[ "b" := data (num 1) ]}) nested nested).
  - vm_compute; reflexivity.
  - reflexivity.
  - reflexivity.
  - vm_compute; reflexivity.
  - left. exists (num 1). vm_compute; reflexivity.
Defined.

Lemma alias_binds_both_ways_witness :
  exists h',
    write_field test_host (Index.alias test_host "b" VUndefined "alias") (VRef 1) (num 2) nested
      = Ok tt h' /\
    js_get test_host (VRef 1) "b" h' = Ok (num 2) h' /\
    read_field test_host (Index.alias test_host "b" VUndefined "alias") (VRef 1) h'
      = Ok (num 2) h'.
Proof.
  apply (alias_binds_both_ways test_host "b" VUndefined "alias" 1%nat
           (plain {[ "b" := data (num 1) ]}) (num 2) nested).
  - vm_compute; reflexivity.
  - discriminate.
  - reflexivity.
  - reflexivity.
  - vm_compute; reflexivity.
  - vm_compute; reflexivity.
  - left. exists (num 1). vm_compute; reflexivity.
Defined.

Lemma and_returns_first_falsy_witness :
  exists r h'',
    read_field test_host (Index.and test_host ["qux.baz"; "qux.foo"] VUndefined "both")
      (VRef 0) with_flags = Ok r h'' /\
    r = VBool false /\
    truthy r = false.
Proof.
  apply (and_returns_first_falsy test_host ["qux.baz"; "qux.foo"] VUndefined "both" (VRef 0)
           [VBool true; VBool false] with_flags with_flags).
  vm_compute; reflexivity.
Defined.

Lemma or_returns_first_truthy_witness :
  exists r h'',
    read_field test_host (Index.or test_host ["qux.foo"; "qux.baz"] VUndefined "either")
      (VRef 0) with_flags = Ok r h'' /\
    r = VBool true /\
    truthy r = true.
Proof.
  apply (or_returns_first_truthy test_host ["qux.foo"; "qux.baz"] VUndefined "either" (VRef 0)
           [VBool false; VBool true] with_flags with_flags).
  vm_compute; reflexivity.
Defined.

Lemma and_or_resolve_every_path_witness :
  read_field test_host (Index.and test_host ["flag"; "foo.bar"] VUndefined "both")
    (VRef 0) with_broken_get = Throw TypeError with_broken_get /\
  read_field test_host (Index.or test_host ["flag"; "foo.bar"] VUndefined "either")
    (VRef 0) with_broken_get = Throw TypeError with_broken_get.
Proof.
  apply (and_or_resolve_every_path test_host ["flag"] "foo.bar" [] VUndefined "both" (VRef 0)
           [VBool false] TypeError with_broken_get with_broken_get with_broken_get).
  - vm_compute; reflexivity.
  - vm_compute; reflexivity.
Defined.

Lemma comparisons_of_numbers_witness :
  exists blt bgt beq ble bge,
    read_field test_host (Index.lt test_host "a.b" (num 2) VUndefined "k") (VRef 0) nested
      = Ok (VBool blt) nested /\
    read_field test_host (Index.gt test_host "a.b" (num 2) VUndefined "k") (VRef 0) nested
      = Ok (VBool bgt) nested /\
    read_field test_host (Index.equal test_host "a.b" (num 2) VUndefined "k") (VRef 0) nested
      = Ok (VBool beq) nested /\
    read_field test_host (Index.lte test_host "a.b" (num 2) VUndefined "k") (VRef 0) nested
      = Ok (VBool ble) nested /\
    read_field test_host (Index.gte test_host "a.b" (num 2) VUndefined "k") (VRef 0) nested
      = Ok (VBool bge) nested /\
    (((Finite 1 = NaN \/ Finite 2 = NaN) /\
      blt = false /\ bgt = false /\ beq = false /\ ble = false /\ bge = false) \/
     (Finite 1 <> NaN /\ Finite 2 <> NaN /\ ble = negb bgt /\ bge = negb blt /\
      ((blt = true /\ beq = false /\ bgt = false) \/
       (blt = false /\ beq = true /\ bgt = false) \/
       (blt = false /\ beq = false /\ bgt = true)))).
Proof.
  apply (comparisons_of_numbers test_host "a.b" VUndefined "k" (VRef 0)
           (Finite 1) (Finite 2) nested nested).
  vm_compute; reflexivity.
Defined.

Lemma empty_means_no_elements_witness :
  read_field test_host (Index.notEmpty test_host "empty" VUndefined "k") (VRef 0) with_arrays
    = Ok (VBool false) with_arrays /\
  (exists l h', read_field test_host
                  (Index.filter test_host "empty" (Ref (VRef 3)) VUndefined "k")
                  (VRef 0) with_arrays = Ok (VRef l) h' /\
                elements h' l = Some []) /\
  (exists l h', read_field test_host
                  (Index.map test_host "empty" (Ref (VRef 3)) VUndefined "k")
                  (VRef 0) with_arrays = Ok (VRef l) h' /\
                elements h' l = Some []) /\
  (exists h', read_field test_host (Index.sum test_host "empty" VUndefined "k")
                (VRef 0) with_arrays = Ok (VNumber (Finite 0)) h').
Proof.
  apply (empty_means_no_elements test_host "empty" VUndefined "k" (VRef 0) VNull
           (Ref (VRef 3)) with_arrays).
  - vm_compute; reflexivity.
  - vm_compute; reflexivity.
  - reflexivity.
Defined.

Lemma filter_keeps_the_truthy_witness :
  read_field test_host (Index.filter test_host "foo" at_index_one VUndefined "k")
    (VRef 0) with_arrays
    = Ok (VRef 4) (with_arrays ++ [Object (Array [Some (num 2)]) ∅ true]).
Proof.
  apply (filter_keeps_the_truthy test_host "foo" at_index_one
           (fun k _ => VBool (strict_equal (index_value k) (num 1)))
           VUndefined "k" (VRef 0) 1%nat
           [Some (num 1); Some (num 2); Some (num 3)] with_arrays).
  - vm_compute; reflexivity.
  - reflexivity.
  - reflexivity.
  - intros v k _. reflexivity.
Defined.

Lemma map_applies_elementwise_witness :
  read_field test_host (Index.map test_host "foo" at_index_one VUndefined "k")
    (VRef 0) with_arrays
    = Ok (VRef 4)
         (with_arrays ++ [Object (Array [Some (VBool false); Some (VBool true);
                                         Some (VBool false)]) ∅ true]).
Proof.
  apply (map_applies_elementwise test_host "foo" at_index_one
           (fun k _ => VBool (strict_equal (index_value k) (num 1)))
           VUndefined "k" (VRef 0) 1%nat
           [Some (num 1); Some (num 2); Some (num 3)] with_arrays).
  - vm_compute; reflexivity.
  - reflexivity.
  - reflexivity.
  - intros v k _. reflexivity.
Defined.

Lemma mapBy_filterBy_by_member_witness :
  read_field test_host (Index.mapBy test_host "foo" "num" VUndefined "k") (VRef 0) with_records
    = Ok (VRef 5)
         (with_records ++ [Object (Array [Some (num 1); Some (num 0); Some VUndefined])
                             ∅ true]) /\
  read_field test_host (Index.filterBy test_host "foo" "num" (Some (num 0)) VUndefined "k")
    (VRef 0) with_records
    = Ok (VRef 5) (with_records ++ [Object (Array [Some (VRef 3)]) ∅ true]) /\
  read_field test_host (Index.filterBy test_host "foo" "num" None VUndefined "k")
    (VRef 0) with_records
    = Ok (VRef 5) (with_records ++ [Object (Array [Some (VRef 2)]) ∅ true]).
Proof.
  apply (mapBy_filterBy_by_member test_host "foo" "num"
           (fun v => match js_get test_host v "num" with_records with
                     | Ok x _ => x
                     | Throw _ _ => VUndefined
                     end)
           (num 0) VUndefined "k" (VRef 0) 1%nat
           [Some (VRef 2); Some (VRef 3); Some (VRef 4)] with_records).
  - vm_compute; reflexivity.
  - reflexivity.
  - intros v Hv. each_element Hv; vm_compute; reflexivity.
  - discriminate.
Defined.

Lemma sum_adds_integers_witness :
  read_field test_host (Index.sum test_host "foo" VUndefined "k") (VRef 0) with_arrays
    = Ok (num 6) with_arrays.
Proof.
  apply (sum_adds_integers test_host "foo" VUndefined "k" (VRef 0) 1%nat
           [Some (num 1); Some (num 2); Some (num 3)] [1; 2; 3] with_arrays).
  - vm_compute; reflexivity.
  - reflexivity.
  - reflexivity.
  - repeat constructor; reflexivity.
  - intros n. destruct n as [|[|[|n]]]; cbn [take fold_right];
      rewrite ?take_nil; split; reflexivity.
Defined.

(** Beyond 2^53 a sum is rounded: [2^53 + 1] is [2^53]. *)
Example sum_rounds_to_double :
  num_add (Finite (2 ^ 53)) (Finite 1) = Finite (2 ^ 53) /\
  num_add (Finite (2 ^ 53)) (Finite 3) = Finite (2 ^ 53 + 4) /\
  num_add (Finite (2 ^ 1023)) (Finite (2 ^ 1023)) = Infinity.
Proof. repeat split; vm_compute; reflexivity. Qed.

Lemma max_min_of_integers_witness :
  exists hi lo,
    read_field test_host (Index.max test_host "foo" VUndefined "k") (VRef 0) with_arrays
      = Ok (integer hi) with_arrays /\
    read_field test_host (Index.min test_host "foo" VUndefined "k") (VRef 0) with_arrays
      = Ok (integer lo) with_arrays /\
    hi ∈ [1; 2; 3] /\ lo ∈ [1; 2; 3] /\
    (forall z, z ∈ [1; 2; 3] -> lo <= z <= hi).
Proof.
  apply (max_min_of_integers test_host "foo" VUndefined "k" (VRef 0) 1%nat
           [1; 2; 3] with_arrays).
  - vm_compute; reflexivity.
  - reflexivity.
  - discriminate.
  - by vm_compute.
Defined.

Lemma max_min_NaN_on_undefined_witness :
  read_field test_host (Index.max test_host "foo" VUndefined "k") (VRef 0) with_undefined
    = Ok (VNumber NaN) with_undefined /\
  read_field test_host (Index.min test_host "foo" VUndefined "k") (VRef 0) with_undefined
    = Ok (VNumber NaN) with_undefined.
Proof.
  apply (max_min_NaN_on_undefined test_host "foo" VUndefined "k" (VRef 0) 1%nat
           [Some (num 1); Some VUndefined; Some (num 3)]
           [Finite 1; NaN; Finite 3] with_undefined with_undefined).
  - vm_compute; reflexivity.
  - reflexivity.
  - by vm_compute.
  - reflexivity.
  - right. apply elem_of_cons. right. apply elem_of_cons. by left.
Defined.

Lemma union_holds_each_value_once_witness :
  exists us,
    read_field test_host (Index.union test_host ["a"; "d"] VUndefined "k") (VRef 0) with_sets
      = Ok (VRef 5) (with_sets ++ [Object (Array (Some <$> us)) ∅ true]) /\
    NoDup us /\
    (forall v, v ∈ us <->
       exists op, op ∈ [(1%nat, [Some (num 1); Some (num 2); Some (num 3)]);
                        (4%nat, [Some (num 1); Some (num 4)])] /\ Some v ∈ op.2).
Proof.
  apply (union_holds_each_value_once test_host ["a"; "d"]
           [(1%nat, [Some (num 1); Some (num 2); Some (num 3)]);
            (4%nat, [Some (num 1); Some (num 4)])] VUndefined "k" (VRef 0) with_sets).
  repeat constructor; vm_compute; reflexivity.
Defined.

Lemma unique_holds_each_value_once_in_order_witness :
  exists us,
    read_field test_host (Index.unique test_host "d" VUndefined "k") (VRef 0) with_sets
      = Ok (VRef 5) (with_sets ++ [Object (Array (Some <$> us)) ∅ true]) /\
    NoDup us /\
    us `sublist_of` [num 1; num 4] /\
    (forall v, v ∈ us <-> Some v ∈ [Some (num 1); Some (num 4)]).
Proof.
  apply (unique_holds_each_value_once_in_order test_host "d" VUndefined "k" (VRef 0) 4%nat
           [Some (num 1); Some (num 4)] with_sets).
  - vm_compute; reflexivity.
  - reflexivity.
Defined.



Lemma uniqueBy_one_element_per_key_witness :
  exists us,
    read_field test_host (Index.uniqueBy test_host "arr" "k" VUndefined "key")
      (VRef 0) with_keys
      = Ok (VRef 6) (with_keys ++ [Object (Array (Some <$> us)) ∅ true]) /\
    us `sublist_of` [VRef 2; VRef 3; VRef 4; VRef 5] /\
    NoDup ((fun v => match js_get test_host v "k" with_keys with
                     | Ok x _ => x
                     | Throw _ _ => VUndefined
                     end) <$> us) /\
    (forall v, Some v ∈ [Some (VRef 2); Some (VRef 3); Some (VRef 4); Some (VRef 5)] ->
       (match js_get test_host v "k" with_keys with
        | Ok x _ => x
        | Throw _ _ => VUndefined
        end)
       ∈ (fun v => match js_get test_host v "k" with_keys with
                   | Ok x _ => x
                   | Throw _ _ => VUndefined
                   end) <$> us).
Proof.
  apply (uniqueBy_one_element_per_key test_host "arr" "k"
           (fun v => match js_get test_host v "k" with_keys with
                     | Ok x _ => x
                     | Throw _ _ => VUndefined
                     end)
           VUndefined "key" (VRef 0) 1%nat
           [Some (VRef 2); Some (VRef 3); Some (VRef 4); Some (VRef 5)] with_keys).
  - vm_compute; reflexivity.
  - reflexivity.
  - intros v Hv. each_element Hv; vm_compute; reflexivity.
Defined.

Lemma sort_returns_sorted_copy_witness :
  exists sorted h',
    read_field test_host (Index.sort test_host "foo" by_order VUndefined "k")
      (VRef 0) with_arrays = Ok (VRef 4) h' /\
    elements h' 4 = Some ((Some <$> sorted) ++ [] ++ []) /\
    elements h' 1 = Some [Some (num 1); Some (num 2); Some (num 3)] /\
    sorted ≡ₚ [num 1; num 2; num 3] /\
    Sorted (fun a b => num_lt (Finite 0) (order a b) = false) sorted.
Proof.
  apply (sort_returns_sorted_copy test_host "foo" by_order order
           VUndefined "k" (VRef 0) 1%nat
           [Some (num 1); Some (num 2); Some (num 3)] with_arrays).
  - vm_compute; reflexivity.
  - reflexivity.
  - reflexivity.
  - intros a b Ha _ Hb _. each_element Ha; each_element Hb; vm_compute; reflexivity.
  - split.
    + intros a b [Ha _] [Hb _]. each_element Ha; each_element Hb; by vm_compute.
    + intros a [Ha _]. each_element Ha; by vm_compute.
    + intros a b [Ha _] [Hb _]. each_element Ha; each_element Hb; vm_compute; tauto.
    + intros a b d [Ha _] [Hb _] [Hd _].
      each_element Ha; each_element Hb; each_element Hd; vm_compute; tauto.
    + intros a b d [Ha _] [Hb _] [Hd _].
      each_element Ha; each_element Hb; each_element Hd; vm_compute; congruence.
    + intros a b d [Ha _] [Hb _] [Hd _].
      each_element Ha; each_element Hb; each_element Hd; vm_compute; congruence.
Defined.

Lemma sortBy_orders_by_member_witness :
  exists sorted h',
    read_field test_host (Index.sortBy test_host "arr" "k" (Some false) VUndefined "key")
      (VRef 0) with_keys = Ok (VRef 6) h' /\
    elements h' 6 = Some ((Some <$> sorted) ++ [] ++ []) /\
    elements h' 1 = Some [Some (VRef 2); Some (VRef 3); Some (VRef 4); Some (VRef 5)] /\
    sorted ≡ₚ [VRef 2; VRef 3; VRef 4; VRef 5] /\
    Sorted (fun a b =>
              (match js_get test_host b "k" with_keys with
               | Ok (VNumber (Finite z)) _ => z
               | _ => 0
               end
               <= match js_get test_host a "k" with_keys with
                  | Ok (VNumber (Finite z)) _ => z
                  | _ => 0
                  end)%Z) sorted.
Proof.
  apply (sortBy_orders_by_member test_host "arr" "k" (Some false)
           (fun v => match js_get test_host v "k" with_keys with
                     | Ok (VNumber (Finite z)) _ => z
                     | _ => 0
                     end)
           VUndefined "key" (VRef 0) 1%nat
           [Some (VRef 2); Some (VRef 3); Some (VRef 4); Some (VRef 5)] with_keys).
  - vm_compute; reflexivity.
  - reflexivity.
  - intros v Hv _. each_element Hv; vm_compute; reflexivity.
Defined.

Lemma not_bool_nullish_witness :
  exists b n,
    read_field test_host (Index.bool test_host "empty" VUndefined "k") (VRef 0) with_arrays
      = Ok (VBool b) with_arrays /\
    read_field test_host (Index.not test_host "empty" VUndefined "k") (VRef 0) with_arrays
      = Ok (VBool (negb b)) with_arrays /\
    read_field test_host (Index.nullish test_host "empty" VUndefined "k") (VRef 0) with_arrays
      = Ok (VBool n) with_arrays /\
    b = false /\
    n = true /\
    (n = true -> b = false).
Proof.
  apply (not_bool_nullish test_host "empty" VUndefined "k" (VRef 0) VNull
           with_arrays with_arrays).
  vm_compute; reflexivity.
Defined.

(** ** The missing operand and [filterBy] on the objects of the tests *)


(** [diff] and [intersect] with a path that is null among their paths, as
    they run. *)
Example diff_with_missing_operand :
  contents (read_field test_host (Index.diff test_host ["foo"; "empty"] VUndefined "x")
              (VRef 0) with_arrays)
    = Some [Some (num 1); Some (num 2); Some (num 3)] /\
  contents (read_field test_host (Index.intersect test_host ["foo"; "empty"] VUndefined "x")
              (VRef 0) with_arrays)
    = Some [] /\
  contents (read_field test_host (Index.union test_host ["empty"; "foo"] VUndefined "x")
              (VRef 0) with_arrays)
    = Some [Some (num 1); Some (num 2); Some (num 3)].
Proof. repeat split; vm_compute; reflexivity. Qed.

Lemma filterBy_never_selects_undefined_witness :
  read_field test_host (Index.filterBy test_host "foo" "num" None VUndefined "fooFiltered")
    (VRef 0) with_records
    = Ok (VRef 5) (with_records ++ [Object (Array [Some (VRef 2)]) ∅ true]) /\
  read_field test_host (Legacy.filterBy test_host "foo" "num" None VUndefined "fooFiltered")
    (VRef 0) with_records
    = Ok (VRef 5) (with_records ++ [Object (Array [Some (VRef 2)]) ∅ true]) /\
  read_field test_host
    (Index.filterBy test_host "foo" "num" (Some (num 0)) VUndefined "fooFiltered")
    (VRef 0) with_records
    = Ok (VRef 5) (with_records ++ [Object (Array [Some (VRef 3)]) ∅ true]).
Proof.
  assert (Hm : forall v, Some v ∈ [Some (VRef 2); Some (VRef 3); Some (VRef 4)] ->
            js_get test_host v "num" with_records
              = Ok (match js_get test_host v "num" with_records with
                    | Ok x _ => x
                    | Throw _ _ => VUndefined
                    end) with_records).
  { intros v Hv. each_element Hv; vm_compute; reflexivity. }
  pose proof (filterBy_never_selects_undefined test_host "foo" "num" _ None
                VUndefined "fooFiltered" (VRef 0) 1%nat _ with_records eq_refl Hm) as Hnone.
  cbv zeta in Hnone.
  destruct Hnone as (_ & _ & _ & _ & Hindex & Hlegacy & _).
  split; [apply Hindex; vm_compute; reflexivity|].
  split; [apply Hlegacy; vm_compute; reflexivity|].
  pose proof (filterBy_never_selects_undefined test_host "foo" "num" _ (Some (num 0))
                VUndefined "fooFiltered" (VRef 0) 1%nat _ with_records eq_refl Hm) as Hzero.
  cbv zeta in Hzero.
  destruct Hzero as (_ & _ & _ & _ & Hindex' & _).
  apply Hindex'. vm_compute; reflexivity.
Defined.
